(** * Open-LLM-VTuber: the Go websocket router, the audio pipeline handler,
      the reconnecting websocket client and the audio store.

    Shallow embedding of
    - go-backend/internal/handlers/websocket_handler.go (module [WsHandler]),
    - the [AudioHandler] of package [handlers], found in the second part of
      go-backend/internal/config/config.go (module [AudioHandler]),
    - vue-frontend/src/services/wsClient.js (modules [WsClient], [WsEvents]),
    - vue-frontend/src/services/api.js (module [ApiService]),
    - the pinia store [useAudioStore], found at the end of the API document
      (module [AudioStore]),
    followed by the properties proved about them. *)

From Stdlib Require QArith.QArith_base.
From stdpp Require Import gmap strings list fin_maps pretty.

Local Open Scope string_scope.
Local Open Scope list_scope.
Local Open Scope nat_scope.
Local Set Warnings "-register-all,-clear-no-such-hyp".

(** ** JSON values carried by frames ([interface{}] in the Go source). *)

Inductive JValue :=
| JNull
| JBool (b : bool)
| JInt (z : Z)
| JNum (q : QArith_base.Q)
| JStr (s : string)
| JArr (l : list JValue)
| JObj (fields : list (string * JValue)).

(** Reading a property of a JSON object: [None] when the value is not an
    object or has no such property. *)
Fixpoint jfield (k : string) (fields : list (string * JValue)) : option JValue :=
  match fields with
  | [] => None
  | (k', v) :: rest => if String.eqb k' k then Some v else jfield k rest
  end.

Definition jget (k : string) (v : JValue) : option JValue :=
  match v with
  | JObj fields => jfield k fields
  | _ => None
  end.

(* ===================================================================== *)
(** ** websocket_handler.go *)
(* ===================================================================== *)

Module WsHandler.

(** A [*websocket.Conn]: connections are compared by pointer identity. *)
Definition Conn := nat.

(** [type Message struct { Type string; Data interface{} }] *)
Record Message := { Type_ : string; Data : JValue }.

Record LLMConfig :=
  { llm_Provider : string; llm_Model : string; llm_BaseURL : string; llm_APIKey : string }.
Record ASRConfig := { asr_Provider : string; asr_Model : string }.
Record TTSConfig := { tts_Provider : string; tts_Voice : string }.
Record Config := { LLM : LLMConfig; ASR : ASRConfig; TTS : TTSConfig }.

Definition json_of_LLM (c : LLMConfig) : JValue :=
  JObj [("Provider", JStr (llm_Provider c)); ("Model", JStr (llm_Model c));
        ("BaseURL", JStr (llm_BaseURL c)); ("APIKey", JStr (llm_APIKey c))].
Definition json_of_ASR (c : ASRConfig) : JValue :=
  JObj [("Provider", JStr (asr_Provider c)); ("Model", JStr (asr_Model c))].
Definition json_of_TTS (c : TTSConfig) : JValue :=
  JObj [("Provider", JStr (tts_Provider c)); ("Voice", JStr (tts_Voice c))].

(** The reasons [conn.ReadJSON] returns an error. *)
Inductive ReadErr := ErrMalformed | ErrTransport.

(** One constructor per [log.Printf] call site. *)
Inductive LogEntry :=
| LogUpgradeFailed
| LogReadFailed (e : ReadErr)
| LogUnknownType (ty : string)
| LogTextInput (data : JValue)
| LogAudioData
| LogSendFailed (c : Conn)
| LogConnected (n : nat)
| LogDisconnected (n : nat)
| LogBroadcastFailed (c : Conn).

(** The handlers [handleMessage] can dispatch to. *)
Inductive HandlerName :=
| H_processTextInput
| H_processAudioData
| H_sendConfigs
| H_sendInitConfig.

(** The handler together with what it acts on:
    - [config], [clients]: fields of [WebSocketHandler];
    - [closed]: connections on which [Close] has been called;
    - [broken]: connections whose transport is down (writes fail);
    - [sent]: frames written successfully, oldest first;
    - [logs]: lines logged, oldest first;
    - [calls]: handlers entered by [handleMessage], oldest first. *)
Record World := {
  config : Config;
  clients : gmap Conn bool;
  closed : gset Conn;
  broken : gset Conn;
  sent : list (Conn * Message);
  logs : list LogEntry;
  calls : list HandlerName
}.

Definition set_clients (f : gmap Conn bool → gmap Conn bool) (w : World) : World :=
  {| config := config w; clients := f (clients w); closed := closed w;
     broken := broken w; sent := sent w; logs := logs w; calls := calls w |}.

Definition log_add (e : LogEntry) (w : World) : World :=
  {| config := config w; clients := clients w; closed := closed w;
     broken := broken w; sent := sent w; logs := logs w ++ [e]; calls := calls w |}.

Definition enter (h : HandlerName) (w : World) : World :=
  {| config := config w; clients := clients w; closed := closed w;
     broken := broken w; sent := sent w; logs := logs w; calls := calls w ++ [h] |}.

(** [conn.Close()] *)
Definition connClose (c : Conn) (w : World) : World :=
  {| config := config w; clients := clients w; closed := {[c]} ∪ closed w;
     broken := broken w; sent := sent w; logs := logs w; calls := calls w |}.

(** [conn.WriteJSON(msg)]: fails on a closed connection or a broken
    transport, otherwise the frame goes out. The boolean is [err == nil]. *)
Definition WriteJSON (c : Conn) (msg : Message) (w : World) : World * bool :=
  if decide (c ∈ closed w ∪ broken w) then (w, false)
  else ({| config := config w; clients := clients w; closed := closed w;
           broken := broken w; sent := sent w ++ [(c, msg)]; logs := logs w;
           calls := calls w |}, true).

Definition sendToClient (conn : Conn) (msg : Message) (w : World) : World :=
  let '(w1, ok) := WriteJSON conn msg w in
  if ok then w1 else connClose conn (log_add (LogSendFailed conn) w1).

Definition processTextInput (conn : Conn) (data : JValue) (w : World) : World :=
  let w := enter H_processTextInput w in
  let w := log_add (LogTextInput data) w in
  let response :=
    {| Type_ := "llm-response";
       Data := JObj [("text", JStr "这是模拟的LLM响应"); ("audioUrl", JStr EmptyString)] |} in
  sendToClient conn response w.

Definition sendInitConfig (conn : Conn) (w : World) : World :=
  let w := enter H_sendInitConfig w in
  let response :=
    {| Type_ := "set-model-and-conf";
       Data := JObj [
         ("model_info", JObj [
            ("name", JStr "mao_pro");
            ("url", JStr "/live2d-models/mao_pro/runtime/mao_pro.model3.json");
            ("kScale", JNum (QArith_base.Qmake 1 2));
            ("initialXshift", JInt 0);
            ("initialYshift", JInt 0);
            ("kXOffset", JInt 1150);
            ("idleMotionGroupName", JStr "Idle");
            ("emotionMap", JObj [
               ("neutral", JInt 0); ("anger", JInt 2); ("disgust", JInt 2);
               ("fear", JInt 1); ("joy", JInt 3); ("smirk", JInt 3);
               ("sadness", JInt 1); ("surprise", JInt 3)]);
            ("tapMotions", JObj [
               ("HitAreaHead", JObj [(EmptyString, JInt 1)]);
               ("HitAreaBody", JObj [(EmptyString, JInt 1)])])]);
         ("conf_name", JStr "default");
         ("conf_uid", JStr "default-uid");
         ("client_uid", JStr "client-uid-placeholder")] |} in
  sendToClient conn response w.

Definition processAudioData (data : JValue) (w : World) : World :=
  let w := enter H_processAudioData w in
  log_add LogAudioData w.

Definition sendConfigs (conn : Conn) (w : World) : World :=
  let w := enter H_sendConfigs w in
  let configs :=
    JObj [("llm", json_of_LLM (LLM (config w)));
          ("asr", json_of_ASR (ASR (config w)));
          ("tts", json_of_TTS (TTS (config w)))] in
  let response := {| Type_ := "configs"; Data := configs |} in
  sendToClient conn response w.

(** The [switch msg.Type] of [handleMessage]. *)
Definition handleMessage (conn : Conn) (msg : Message) (w : World) : World :=
  if String.eqb (Type_ msg) "text-input" then processTextInput conn (Data msg) w
  else if String.eqb (Type_ msg) "mic-audio-data" then processAudioData (Data msg) w
  else if String.eqb (Type_ msg) "fetch-configs" then sendConfigs conn w
  else if String.eqb (Type_ msg) "request-init-config" then sendInitConfig conn w
  else log_add (LogUnknownType (Type_ msg)) w.

(** The [case] labels of that [switch]. *)
Definition handled_types : list string :=
  ["text-input"; "mic-audio-data"; "fetch-configs"; "request-init-config"].

(** What [conn.ReadJSON] comes back with, call after call: a frame that
    decodes into a [Message], a frame that does not, or an error of the
    transport (the peer is gone, or the connection has been closed). *)
Inductive Frame :=
| Decoded (m : Message)
| Malformed
| TransportError.

(** Where [HandleWebSocket] stands once the frames supplied so far are
    consumed: blocked in [ReadJSON], or returned. *)
Inductive LoopStatus := AwaitingFrame | Returned.

(** The [for { ... }] loop of [HandleWebSocket]: it goes on as long as
    [ReadJSON] returns frames that decode, and is left on the first error. *)
Fixpoint readLoop (conn : Conn) (frames : list Frame) (w : World) : World * LoopStatus :=
  match frames with
  | [] => (w, AwaitingFrame)
  | f :: rest =>
      match f with
      | Decoded msg => readLoop conn rest (handleMessage conn msg w)
      | Malformed => (log_add (LogReadFailed ErrMalformed) w, Returned)
      | TransportError => (log_add (LogReadFailed ErrTransport) w, Returned)
      end
  end.

(** [case conn := <-h.register] of [handleClients]. *)
Definition handleRegister (conn : Conn) (w : World) : World :=
  let w := set_clients (λ m, <[conn := true]> m) w in
  log_add (LogConnected (size (clients w))) w.

(** [case conn := <-h.unregister] of [handleClients]. *)
Definition handleUnregister (conn : Conn) (w : World) : World :=
  let w := match clients w !! conn with
           | Some _ => connClose conn (set_clients (λ m, delete conn m) w)
           | None => w
           end in
  log_add (LogDisconnected (size (clients w))) w.

(** [case message := <-h.broadcast] of [handleClients]. Go leaves the
    iteration order of [range h.clients] unspecified: [order] is the order
    this run produces the keys in. An entry deleted before it is reached
    is not produced. *)
Fixpoint broadcastLoop (message : Message) (order : list Conn) (w : World) : World :=
  match order with
  | [] => w
  | conn :: rest =>
      broadcastLoop message rest
        match clients w !! conn with
        | None => w
        | Some _ =>
            let '(w1, ok) := WriteJSON conn message w in
            if ok then w1
            else connClose conn
                   (set_clients (λ m, delete conn m) (log_add (LogBroadcastFailed conn) w1))
        end
  end.

Definition handleBroadcast (message : Message) (w : World) : World :=
  broadcastLoop message (elements (dom (clients w))) w.

(** What arrives on the three channels [handleClients] selects on. *)
Inductive ClientsEvent :=
| EvRegister (conn : Conn)
| EvUnregister (conn : Conn)
| EvBroadcast (message : Message).

Definition handleClients_step (ev : ClientsEvent) (w : World) : World :=
  match ev with
  | EvRegister conn => handleRegister conn w
  | EvUnregister conn => handleUnregister conn w
  | EvBroadcast message => handleBroadcast message w
  end.

(** [HandleWebSocket]: [upgraded] is the connection the upgrade yields,
    [None] when it fails. The two deferred calls run when the loop is left:
    the unregister request first, then [conn.Close()]. *)
Definition HandleWebSocket (upgraded : option Conn) (frames : list Frame) (w : World)
  : World * LoopStatus :=
  match upgraded with
  | None => (log_add LogUpgradeFailed w, Returned)
  | Some conn =>
      let w := handleRegister conn w in
      let '(w, st) := readLoop conn frames w in
      match st with
      | AwaitingFrame => (w, AwaitingFrame)
      | Returned => (connClose conn (handleUnregister conn w), Returned)
      end
  end.

(** The frames written to [c], in order, and their types. *)
Definition sent_to (c : Conn) (w : World) : list Message :=
  (filter (λ p, p.1 = c) (sent w)).*2.

Definition types_sent_to (c : Conn) (w : World) : list string :=
  Type_ <$> sent_to c w.

(** The types of the frames the handlers of [handleMessage] write. *)
Definition reply_types : list string :=
  ["llm-response"; "configs"; "set-model-and-conf"].

(** The member set of the registry. *)
Definition members (w : World) : gset Conn := dom (clients w).

(** The members a write fails for: those already closed and those whose
    transport is down. *)
Definition failing (w : World) : gset Conn :=
  filter (λ c, c ∈ closed w ∪ broken w) (members w).

(** A world with nothing connected. *)
Definition new_world (cfg : Config) : World :=
  {| config := cfg; clients := ∅; closed := ∅; broken := ∅;
     sent := []; logs := []; calls := [] |}.

(** The configuration [LoadConfig] yields when nothing is set for the
    services: every field the empty string. *)
Definition default_config : Config :=
  {| LLM := {| llm_Provider := EmptyString; llm_Model := EmptyString;
              llm_BaseURL := EmptyString; llm_APIKey := EmptyString |};
     ASR := {| asr_Provider := EmptyString; asr_Model := EmptyString |};
     TTS := {| tts_Provider := EmptyString; tts_Voice := EmptyString |} |}.



(** The type of the frame the handler for [ty] writes back, [None] when
    the router writes nothing for [ty]: [processAudioData] and the default
    branch only log. *)
Definition reply_type_of (ty : string) : option string :=
  if String.eqb ty "text-input" then Some "llm-response"
  else if String.eqb ty "mic-audio-data" then None
  else if String.eqb ty "fetch-configs" then Some "configs"
  else if String.eqb ty "request-init-config" then Some "set-model-and-conf"
  else None.

End WsHandler.

(* ===================================================================== *)
(** ** The AudioHandler: the chained ASR, LLM, TTS run *)
(* ===================================================================== *)

Module AudioHandler.

(** A Go [error], by its message ([err.Error()]). *)
Definition error := string.

(** A Go [(T, error)] return. *)
Inductive result (A : Type) :=
| Ok (a : A)
| Err (e : error).
Arguments Ok {A} a.
Arguments Err {A} e.

Inductive Stage := ASR | LLM | TTS.

(** What a run leaves behind, oldest first: its log line and the stage
    services it entered, with the arguments they were entered with. *)
Inductive Event :=
| LogProcess (format : string) (size : nat)
| CallASR (audioData : list Byte.byte) (format : string)
| CallLLM (inputText : string)
| CallTTS (text : string).

(** Computations that leave events behind and may fail with an [error]. *)
Definition M (A : Type) : Type := list Event → list Event * result A.

#[global] Instance M_ret : MRet M := λ A a tr, (tr, Ok a).
#[global] Instance M_bind : MBind M := λ A B k m tr,
  match m tr with
  | (tr1, Ok a) => k a tr1
  | (tr1, Err e) => (tr1, Err e)
  end.
Definition emit (ev : Event) : M unit := λ tr, (tr ++ [ev], Ok tt).
Definition lift {A} (r : result A) : M A := λ tr, (tr, r).

(** The three stage services. Their bodies in the source are placeholders
    for calls into real models, so the run is stated over any bodies;
    [stubs] are the bodies as written. *)
Record Services := {
  asr_service : list Byte.byte → string → result string;
  llm_service : string → result string;
  tts_service : string → result string
}.

Definition stubs : Services :=
  {| asr_service := λ _ _, Ok "用户说的内容";
     llm_service := λ _, Ok "AI的回复内容";
     tts_service := λ _, Ok "/audio/generated.mp3" |}.

Record AudioRequest := { AudioData : list Byte.byte; Format : string }.
Record AudioResponse := { Text : string; AudioURL : string }.

Section Run.
Variable svc : Services.

Definition callASRService (audioData : list Byte.byte) (format : string) : M string :=
  emit (CallASR audioData format) ;; lift (asr_service svc audioData format).

Definition callLLMService (inputText : string) : M string :=
  emit (CallLLM inputText) ;; lift (llm_service svc inputText).

Definition callTTSService (text : string) : M string :=
  emit (CallTTS text) ;; lift (tts_service svc text).

Definition processAudioData (audioData : list Byte.byte) (format : string)
  : M AudioResponse :=
  emit (LogProcess format (length audioData)) ;;
  text ← callASRService audioData format ;
  reply ← callLLMService text ;
  audioURL ← callTTSService reply ;
  mret {| Text := reply; AudioURL := audioURL |}.

(** The body [c.JSON] answers with. *)
Inductive Body :=
| ErrorBody (msg : string)
| AudioBody (r : AudioResponse).

Record HttpResponse := { status : nat; body : Body }.

(** [ProcessAudio]: [bound] is the outcome of [c.ShouldBindJSON(&req)]. *)
Definition ProcessAudio (bound : result AudioRequest) (tr : list Event)
  : list Event * HttpResponse :=
  match bound with
  | Err e => (tr, {| status := 400; body := ErrorBody e |})
  | Ok req =>
      match processAudioData (AudioData req) (Format req) tr with
      | (tr1, Err e) => (tr1, {| status := 500; body := ErrorBody e |})
      | (tr1, Ok r) => (tr1, {| status := 200; body := AudioBody r |})
      end
  end.
End Run.

(** [ProcessWebSocketAudio]. A sample is a [float32]; [byte_of_sample] is
    the conversion [byte(sample * 127)] the loop writes for each one. *)
Section WebSocketAudio.
Variable svc : Services.
Context {Sample : Type}.
Variable byte_of_sample : Sample → Byte.byte.

Definition ProcessWebSocketAudio (audioData : list Sample) : M string :=
  let buf := byte_of_sample <$> audioData in
  text ← callASRService svc buf "raw" ;
  callLLMService svc text.

End WebSocketAudio.

(** The stages a run entered, in order. *)
Definition stage_of (ev : Event) : option Stage :=
  match ev with
  | LogProcess _ _ => None
  | CallASR _ _ => Some ASR
  | CallLLM _ => Some LLM
  | CallTTS _ => Some TTS
  end.

Definition stages (tr : list Event) : list Stage := omap stage_of tr.

End AudioHandler.

(* ===================================================================== *)
(** ** wsClient.js: the reconnecting WebSocketService *)
(* ===================================================================== *)

Module WsClient.

(** [WebSocket.readyState] *)
Inductive ReadyState := CONNECTING | OPEN | CLOSING | CLOSED.

#[global] Instance ReadyState_eq_dec : EqDecision ReadyState.
Proof. solve_decision. Defined.

(** The fields of a [WebSocketService]. [ws] is the socket held in
    [this.ws], by its position among the sockets created so far; [None]
    is [null]. *)
Record Service := {
  ws : option nat;
  reconnectInterval : nat;
  maxReconnectAttempts : nat;
  reconnectAttempts : nat
}.

(** The service in its browser:
    - [sockets]: every socket created by [connect], oldest first;
    - [pending]: the delays of the [setTimeout] callbacks not yet run;
    - [emitted]: the events passed to [emit], oldest first. *)
Record Env := {
  this : Service;
  sockets : list ReadyState;
  pending : list nat;
  emitted : list string
}.

Definition set_this (f : Service → Service) (e : Env) : Env :=
  {| this := f (this e); sockets := sockets e; pending := pending e; emitted := emitted e |}.

Definition set_sockets (f : list ReadyState → list ReadyState) (e : Env) : Env :=
  {| this := this e; sockets := f (sockets e); pending := pending e; emitted := emitted e |}.

Definition set_pending (f : list nat → list nat) (e : Env) : Env :=
  {| this := this e; sockets := sockets e; pending := f (pending e); emitted := emitted e |}.

Definition set_reconnectAttempts (n : nat) (s : Service) : Service :=
  {| ws := ws s; reconnectInterval := reconnectInterval s;
     maxReconnectAttempts := maxReconnectAttempts s; reconnectAttempts := n |}.

Definition set_ws (i : option nat) (s : Service) : Service :=
  {| ws := i; reconnectInterval := reconnectInterval s;
     maxReconnectAttempts := maxReconnectAttempts s;
     reconnectAttempts := reconnectAttempts s |}.

(** [emit(event, data)]: the registered handlers run; they are the
    page's own and do not call back into the service. *)
Definition emit (event : string) (e : Env) : Env :=
  {| this := this e; sockets := sockets e; pending := pending e;
     emitted := emitted e ++ [event] |}.

(** [connect()]: [created] tells whether [new WebSocket(this.url)] returns
    a socket; when it throws, the [catch] emits ['error']. The four
    handlers below are installed on the new socket. *)
Definition connect (created : bool) (e : Env) : Env :=
  if created then
    set_this (set_ws (Some (length (sockets e))))
      (set_sockets (λ l, l ++ [CONNECTING]) e)
  else emit "error" e.

(** [ws.onopen] *)
Definition onopen (e : Env) : Env :=
  emit "open" (set_this (set_reconnectAttempts 0) e).

(** [ws.onmessage] *)
Definition onmessage (e : Env) : Env := emit "message" e.

(** [ws.onclose]: emits ['close'], then schedules the reconnection. *)
Definition onclose (e : Env) : Env :=
  let e := emit "close" e in
  if reconnectAttempts (this e) <? maxReconnectAttempts (this e)
  then set_pending (λ l, l ++ [reconnectInterval (this e)]) e
  else e.

(** The callback passed to [setTimeout]: one reconnection attempt. *)
Definition reconnect (created : bool) (e : Env) : Env :=
  connect created (set_this (λ s, set_reconnectAttempts (reconnectAttempts s + 1) s) e).

(** [ws.onerror] *)
Definition onerror (e : Env) : Env := emit "error" e.

(** [close()]: [this.ws.close()] starts the closing handshake. *)
Definition close (e : Env) : Env :=
  match ws (this e) with
  | None => e
  | Some i =>
      match sockets e !! i with
      | Some CONNECTING | Some OPEN => set_sockets (λ l, <[i := CLOSING]> l) e
      | _ => e
      end
  end.

(** [new WebSocketService(url)] *)
Definition new_service (created : bool) : Env :=
  connect created
    {| this := {| ws := None; reconnectInterval := 5000;
                  maxReconnectAttempts := 5; reconnectAttempts := 0 |};
       sockets := []; pending := []; emitted := [] |}.

(** What the browser and the page can do next. A socket opens at most
    once, from [CONNECTING]; it closes exactly once, and is silent
    afterwards; a timer fires only if one is pending. The page can call
    [close()], and it can call [connect()] itself, the method being as
    public as the others. ([send], [on], [off], [emit] and [isConnected]
    change none of the fields kept here.) *)
Inductive Event :=
| SocketOpens (i : nat)
| SocketMessage (i : nat)
| SocketErrors (i : nat)
| SocketCloses (i : nat)
| TimerFires (created : bool)
| CallClose
| CallConnect (created : bool).

(** One event; [None] when the browser cannot produce it in this state. *)
Definition step (ev : Event) (e : Env) : option Env :=
  match ev with
  | SocketOpens i =>
      match sockets e !! i with
      | Some CONNECTING => Some (onopen (set_sockets (λ l, <[i := OPEN]> l) e))
      | _ => None
      end
  | SocketMessage i =>
      match sockets e !! i with
      | Some OPEN => Some (onmessage e)
      | _ => None
      end
  | SocketErrors i =>
      match sockets e !! i with
      | Some CONNECTING | Some OPEN | Some CLOSING => Some (onerror e)
      | _ => None
      end
  | SocketCloses i =>
      match sockets e !! i with
      | Some CONNECTING | Some OPEN | Some CLOSING =>
          Some (onclose (set_sockets (λ l, <[i := CLOSED]> l) e))
      | _ => None
      end
  | TimerFires created =>
      match pending e with
      | [] => None
      | _ :: rest => Some (reconnect created (set_pending (λ _, rest) e))
      end
  | CallClose => Some (close e)
  | CallConnect created => Some (connect created e)
  end.

Fixpoint run (evs : list Event) (e : Env) : option Env :=
  match evs with
  | [] => Some e
  | ev :: rest =>
      match step ev e with
      | Some e' => run rest e'
      | None => None
      end
  end.

Definition is_attempt (ev : Event) : bool :=
  match ev with TimerFires _ => true | _ => false end.

Definition is_open (ev : Event) : bool :=
  match ev with SocketOpens _ => true | _ => false end.

Definition is_connect (ev : Event) : bool :=
  match ev with CallConnect _ => true | _ => false end.

(** The page does not call [connect()] along the run: the constructor and
    the reconnection timer are its only callers. *)
Definition no_connect (evs : list Event) : Prop :=
  Forall (λ ev, is_connect ev = false) evs.

(** The reconnection attempts made along a run. *)
Definition attempts_in (evs : list Event) : nat :=
  length (filter (λ ev, is_attempt ev = true) evs).

(** No socket opens along the run. *)
Definition no_open (evs : list Event) : Prop :=
  Forall (λ ev, is_open ev = false) evs.

(** The sockets that can still fire events. *)
Definition live (e : Env) : nat :=
  length (filter (λ s, s ≠ CLOSED) (sockets e)).

(** [isConnected()], as a truth value. *)
Definition isConnected (e : Env) : bool :=
  match ws (this e) with
  | None => false
  | Some i =>
      match sockets e !! i with
      | Some OPEN => true
      | _ => false
      end
  end.

(** [typeof data === 'object']: objects, arrays and [null]. *)
Definition typeof_object (data : JValue) : bool :=
  match data with
  | JNull | JArr _ | JObj _ => true
  | _ => false
  end.

(** What [ws.send] is handed: the [JSON.stringify] of the data, or the
    data as it is. *)
Inductive Wire :=
| Stringified (data : JValue)
| Raw (data : JValue).

(** How [send(data)] ends: the socket it handed the data to, or the
    ['WebSocket is not connected'] error. *)
Inductive SendOutcome :=
| Sent (i : nat) (wire : Wire)
| NotConnected.

(** [send(data)] *)
Definition send (data : JValue) (e : Env) : SendOutcome :=
  match ws (this e) with
  | None => NotConnected
  | Some i =>
      match sockets e !! i with
      | Some OPEN =>
          if typeof_object data then Sent i (Stringified data) else Sent i (Raw data)
      | _ => NotConnected
      end
  end.

(** What also holds from the construction on, while [connect()] is called
    by the constructor and the timer only: a socket that is not closed
    is the one in [this.ws], the counter is 0 while a socket is open, and
    the interval stays 5000. *)
Definition Inv_ws (e : Env) : Prop :=
  (∀ i s, sockets e !! i = Some s → s ≠ CLOSED → ws (this e) = Some i) ∧
  (∀ i, sockets e !! i = Some OPEN → reconnectAttempts (this e) = 0) ∧
  reconnectInterval (this e) = 5000.

(** What holds of the service from its construction on, while
    [connect()] is called by the constructor and the timer only: at most one
    thing can still lead to a reconnection (a socket that has yet to
    close, or a timer that has yet to fire), the attempts made and the one
    pending never exceed the maximum, and the maximum stays 5. *)
Definition Inv (e : Env) : Prop :=
  live e + length (pending e) ≤ 1 ∧
  reconnectAttempts (this e) + length (pending e) ≤ maxReconnectAttempts (this e) ∧
  maxReconnectAttempts (this e) = 5.

End WsClient.

(* ===================================================================== *)
(** ** wsClient.js: the handler registry ([on], [off], [emit]) *)
(* ===================================================================== *)

Module WsEvents.

(** A handler function, by identity ([indexOf] compares with [===]). *)
Definition Handler := nat.

(** [this.eventHandlers]: the own properties of the object, each an array
    of handlers. *)
Abbreviation Registry := (gmap string (list Handler)).

(** The properties every object inherits from [Object.prototype]: reading
    one of them off [eventHandlers] yields a value that is truthy and is
    not an array. *)
Definition inherited : list string :=
  ["constructor"; "__defineGetter__"; "__defineSetter__"; "hasOwnProperty";
   "__lookupGetter__"; "__lookupSetter__"; "isPrototypeOf";
   "propertyIsEnumerable"; "toString"; "valueOf"; "__proto__";
   "toLocaleString"].

(** How a call ends: it returns, or a [TypeError] comes out of it. *)
Inductive Outcome (A : Type) :=
| Returns (a : A)
| Throws.
Arguments Returns {A} a.
Arguments Throws {A}.

(** [on(event, handler)]: on an inherited name the array is not created
    and [push] is not a function. *)
Definition on (event : string) (handler : Handler) (reg : Registry) : Outcome Registry :=
  match reg !! event with
  | Some l => Returns (<[event := l ++ [handler]]> reg)
  | None =>
      if decide (event ∈ inherited) then Throws
      else Returns (<[event := [handler]]> reg)
  end.

(** [splice(index, 1)] at the [indexOf] of the handler: the first
    occurrence goes, if there is one. *)
Fixpoint remove_first (handler : Handler) (l : list Handler) : list Handler :=
  match l with
  | [] => []
  | h :: rest => if decide (h = handler) then rest else h :: remove_first handler rest
  end.

(** [off(event, handler)] *)
Definition off (event : string) (handler : Handler) (reg : Registry) : Outcome Registry :=
  match reg !! event with
  | Some l => Returns (<[event := remove_first handler l]> reg)
  | None => if decide (event ∈ inherited) then Throws else Returns reg
  end.

(** What an [emit] did: the handlers it called, in order, and those whose
    error it caught and logged. *)
Record Emitted := { called : list Handler; caught : list Handler }.

Section Emit.
(** Whether a handler throws when called. Handlers do not call back into
    the service. *)
Variable throws : Handler → bool.

(** [emit(event, data)]: each handler runs inside its own [try]. *)
Definition emit (event : string) (reg : Registry) : Outcome Emitted :=
  match reg !! event with
  | Some l => Returns {| called := l; caught := filter (λ h, throws h = true) l |}
  | None =>
      if decide (event ∈ inherited) then Throws
      else Returns {| called := []; caught := [] |}
  end.
End Emit.

(** The handlers registered for an event. *)
Definition handlers_of (event : string) (reg : Registry) : list Handler :=
  default [] (reg !! event).

(** A sequence of registrations and removals, stopping at the first call
    that throws. *)
Inductive Call :=
| On (event : string) (handler : Handler)
| Off (event : string) (handler : Handler).

Definition call (c : Call) (reg : Registry) : Outcome Registry :=
  match c with
  | On event handler => on event handler reg
  | Off event handler => off event handler reg
  end.

Fixpoint run_calls (cs : list Call) (reg : Registry) : Outcome Registry :=
  match cs with
  | [] => Returns reg
  | c :: rest =>
      match call c reg with
      | Returns reg' => run_calls rest reg'
      | Throws => Throws
      end
  end.

End WsEvents.

(* ===================================================================== *)
(** ** The audio store ([useAudioStore]) *)
(* ===================================================================== *)

Module AudioStore.

(** An entry of [recentAudio]; [url] is [None] for [undefined]. *)
Record AudioEntry := {
  id : Z;
  name : string;
  url : option string;
  timestamp : Z
}.

Record State := {
  recentAudio : list AudioEntry;
  isProcessing : bool;
  currentVolume : Z
}.

Definition initial_state : State :=
  {| recentAudio := []; isProcessing := false; currentVolume := 80 |}.

Definition set_recentAudio (l : list AudioEntry) (st : State) : State :=
  {| recentAudio := l; isProcessing := isProcessing st; currentVolume := currentVolume st |}.

(** The argument of [addAudio]: an object with its [url] property. *)
Record AudioData := { ad_url : option string }.

(** How a call ends. *)
Inductive Outcome :=
| Returns (st : State)
| Throws (st : State).

Definition state_of (o : Outcome) : State :=
  match o with Returns st | Throws st => st end.

(** [addAudio(audioData)]. [now1] and [now2] are the two readings of
    [Date.now()]. The entry is built before [unshift] runs: its name counts
    the entries already held, and reading [url] of [null] or [undefined]
    ([None]) throws before the list is touched. *)
Definition addAudio (audioData : option AudioData) (now1 now2 : Z) (st : State) : Outcome :=
  match audioData with
  | None => Throws st
  | Some d =>
      let entry := {| id := now1;
                      name := "Audio " +:+ pretty (length (recentAudio st) + 1);
                      url := ad_url d;
                      timestamp := now2 |} in
      let l := entry :: recentAudio st in
      let l := if 10 <? length l then removelast l else l in
      Returns (set_recentAudio l st)
  end.

Definition setIsProcessing (status : bool) (st : State) : State :=
  {| recentAudio := recentAudio st; isProcessing := status; currentVolume := currentVolume st |}.

Definition setVolume (volume : Z) (st : State) : State :=
  {| recentAudio := recentAudio st; isProcessing := isProcessing st; currentVolume := volume |}.

(** [sendAudioData(audioUrl)] up to its [await]. *)
Definition sendAudioData_start (st : State) : State := setIsProcessing true st.

(** [sendAudioData(audioUrl)] from its [await] on: the [try] body adds the
    entry, the [catch] logs, the [finally] clears the flag. *)
Definition sendAudioData_resume (audioUrl : option string) (now1 now2 : Z) (st : State) : State :=
  setIsProcessing false (state_of (addAudio (Some {| ad_url := audioUrl |}) now1 now2 st)).

(** The steps the store takes; other code may run between the two halves
    of [sendAudioData]. *)
Inductive Action :=
| AddAudio (audioData : option AudioData) (now1 now2 : Z)
| SetIsProcessing (status : bool)
| SetVolume (volume : Z)
| SendAudioDataStart
| SendAudioDataResume (audioUrl : option string) (now1 now2 : Z).

Definition act (a : Action) (st : State) : State :=
  match a with
  | AddAudio d n1 n2 => state_of (addAudio d n1 n2 st)
  | SetIsProcessing b => setIsProcessing b st
  | SetVolume v => setVolume v st
  | SendAudioDataStart => sendAudioData_start st
  | SendAudioDataResume u n1 n2 => sendAudioData_resume u n1 n2 st
  end.

Definition acts (l : list Action) (st : State) : State := foldl (λ s a, act a s) st l.

(** What a recording is made of, and what an entry keeps of it: the two
    clock readings and the url ([name] depends on the list). *)
Definition Recording : Type := AudioData * Z * Z.

Definition add_recording (r : Recording) : Action :=
  AddAudio (Some r.1.1) r.1.2 r.2.

Definition kept_of_recording (r : Recording) : Z * option string * Z :=
  (r.1.2, ad_url r.1.1, r.2).

Definition kept_of_entry (en : AudioEntry) : Z * option string * Z :=
  (id en, url en, timestamp en).

End AudioStore.

(* ===================================================================== *)
(** ** api.js: the ApiService *)
(* ===================================================================== *)

Module ApiService.

(** The [options] a request is made with: the properties [fetch] reads
    that the service sets or merges; [None] is a property that is absent. *)
Record Options := {
  method : option string;
  headers : option (gmap string string);
  body : option string
}.

(** What [fetch] is called with. *)
Record Request := {
  url : string;
  req_method : option string;
  req_headers : gmap string string;
  req_body : option string
}.

(** How [response.json()] settles. *)
Inductive JsonOutcome :=
| JsonResolves (v : JValue)
| JsonRejects (e : string).

(** How [fetch] settles: it rejects (no response at all), or it resolves
    with a response, its [ok] flag, its status and its body. *)
Inductive FetchOutcome :=
| FetchRejects (e : string)
| FetchResponds (ok : bool) (status : nat) (json : JsonOutcome).

(** How the promise of [request] settles; an error is given by its
    message. *)
Inductive Settled :=
| Resolved (v : JValue)
| Rejected (e : string).

(** A call of [request]: the request it made, the errors it logged with
    [console.error], and how it settled. *)
Record Outcome := {
  made : Request;
  logged : list string;
  settled : Settled
}.

(** [new ApiService(baseURL = '/api')] *)
Record Service := { baseURL : string }.

Definition new_ApiService (arg : option string) : Service :=
  {| baseURL := default "/api" arg |}.

Section Network.
(** The network: how [fetch] settles for a request; and [JSON.stringify]. *)
Variable fetch : Request → FetchOutcome.
Variable stringify : JValue → string.
Variable api : Service.

(** [request(endpoint, options = {})]. In [config] the spread of
    [options] comes after the merged [headers]: headers given by the
    caller take the place of the merged ones. *)
Definition request (endpoint : string) (options : Options) : Outcome :=
  let url := baseURL api +:+ endpoint in
  let merged :=
    default ∅ (headers options) ∪ {["Content-Type" := "application/json"]} in
  let config :=
    {| url := url;
       req_method := method options;
       req_headers := match headers options with Some h => h | None => merged end;
       req_body := body options |} in
  match fetch config with
  | FetchRejects e => {| made := config; logged := [e]; settled := Rejected e |}
  | FetchResponds false status _ =>
      let e := "HTTP error! status: " +:+ pretty status in
      {| made := config; logged := [e]; settled := Rejected e |}
  | FetchResponds true _ (JsonRejects e) =>
      {| made := config; logged := [e]; settled := Rejected e |}
  | FetchResponds true _ (JsonResolves v) =>
      {| made := config; logged := []; settled := Resolved v |}
  end.

Definition get (endpoint : string) : Outcome :=
  request endpoint {| method := Some "GET"; headers := None; body := None |}.

Definition post (endpoint : string) (data : JValue) : Outcome :=
  request endpoint
    {| method := Some "POST"; headers := None; body := Some (stringify data) |}.

Definition put (endpoint : string) (data : JValue) : Outcome :=
  request endpoint
    {| method := Some "PUT"; headers := None; body := Some (stringify data) |}.

Definition delete (endpoint : string) : Outcome :=
  request endpoint {| method := Some "DELETE"; headers := None; body := None |}.

Definition healthCheck : Outcome := get "/health".
Definition getConfigs : Outcome := get "/configs".
Definition updateConfig (config : JValue) : Outcome := post "/configs" config.
Definition processAudio (audioData : JValue) : Outcome := post "/audio/process" audioData.

End Network.

(** What [c.JSON] of the audio handler puts in the body: [gin.H] with its
    [error], or the [AudioResponse] under its json names, its empty
    [error] left out. *)
Definition json_of_body (b : AudioHandler.Body) : JValue :=
  match b with
  | AudioHandler.ErrorBody msg => JObj [("error", JStr msg)]
  | AudioHandler.AudioBody r =>
      JObj [("text", JStr (AudioHandler.Text r));
            ("audio_url", JStr (AudioHandler.AudioURL r))]
  end.

(** The response [fetch] resolves with for an answer of the audio
    handler: [ok] is a status from 200 to 299. *)
Definition respond (r : AudioHandler.HttpResponse) : FetchOutcome :=
  FetchResponds
    ((200 <=? AudioHandler.status r) && (AudioHandler.status r <=? 299))
    (AudioHandler.status r)
    (JsonResolves (json_of_body (AudioHandler.body r))).

End ApiService.

(* ===================================================================== *)
(** * Properties *)
(* ===================================================================== *)

(** Closed decidable goals, by evaluation. *)
Ltac by_compute := apply (bool_decide_unpack _); vm_compute; exact I.

Section WsHandlerFacts.
Import WsHandler.

Implicit Types (conn c : Conn) (msg m : Message) (w : World).

(** *** The switch of [handleMessage] *)

Lemma handleMessage_text_input conn msg w :
  Type_ msg = "text-input" →
  handleMessage conn msg w = processTextInput conn (Data msg) w.
Proof. intros E. unfold handleMessage. by rewrite E. Qed.

Lemma handleMessage_mic_audio_data conn msg w :
  Type_ msg = "mic-audio-data" →
  handleMessage conn msg w = processAudioData (Data msg) w.
Proof. intros E. unfold handleMessage. by rewrite E. Qed.

Lemma handleMessage_fetch_configs conn msg w :
  Type_ msg = "fetch-configs" →
  handleMessage conn msg w = sendConfigs conn w.
Proof. intros E. unfold handleMessage. by rewrite E. Qed.

Lemma handleMessage_request_init_config conn msg w :
  Type_ msg = "request-init-config" →
  handleMessage conn msg w = sendInitConfig conn w.
Proof. intros E. unfold handleMessage. by rewrite E. Qed.

Lemma handleMessage_default conn msg w :
  Type_ msg ∉ handled_types →
  handleMessage conn msg w = log_add (LogUnknownType (Type_ msg)) w.
Proof.
  intros Hty. unfold handleMessage.
  repeat match goal with
  | |- context [String.eqb ?a ?b] =>
      destruct (String.eqb_spec a b) as [E|_];
      [exfalso; apply Hty; rewrite E; by_compute|]
  end.
  reflexivity.
Qed.

(** *** Writing to a connection *)

Lemma sendToClient_ok conn msg w :
  conn ∉ closed w ∪ broken w →
  sendToClient conn msg w =
    {| config := config w; clients := clients w; closed := closed w;
       broken := broken w; sent := sent w ++ [(conn, msg)]; logs := logs w;
       calls := calls w |}.
Proof. intros H. unfold sendToClient, WriteJSON. by rewrite decide_False. Qed.

Lemma sendToClient_fail conn msg w :
  conn ∈ closed w ∪ broken w →
  sendToClient conn msg w = connClose conn (log_add (LogSendFailed conn) w).
Proof. intros H. unfold sendToClient, WriteJSON. by rewrite decide_True. Qed.

(** A write adds at most the frame it was given, and touches neither the
    registry nor the handlers entered. *)
Lemma sendToClient_sent conn msg w :
  ∃ new, sent (sendToClient conn msg w) = sent w ++ new ∧
         Forall (λ p, p = (conn, msg)) new.
Proof.
  destruct (decide (conn ∈ closed w ∪ broken w)) as [H|H].
  - rewrite sendToClient_fail by done. exists []. by rewrite app_nil_r.
  - rewrite sendToClient_ok by done. exists [(conn, msg)]. split; [done|].
    by constructor.
Qed.

Lemma handleMessage_sent conn msg w :
  ∃ new, sent (handleMessage conn msg w) = sent w ++ new ∧
         Forall (λ p, p.1 = conn ∧ Type_ p.2 ∈ reply_types) new.
Proof.
  assert (Hsend : ∀ r w0, sent w0 = sent w → Type_ r ∈ reply_types →
            ∃ new, sent (sendToClient conn r w0) = sent w ++ new ∧
                   Forall (λ p, p.1 = conn ∧ Type_ p.2 ∈ reply_types) new).
  { intros r w0 E Hr. destruct (sendToClient_sent conn r w0) as (new & -> & Hnew).
    exists new. rewrite E. split; [done|].
    eapply Forall_impl; [exact Hnew|]. by intros p ->. }
  unfold handleMessage.
  destruct (String.eqb _ "text-input");
    [apply Hsend; [done | by_compute]|].
  destruct (String.eqb _ "mic-audio-data");
    [exists []; by rewrite app_nil_r|].
  destruct (String.eqb _ "fetch-configs");
    [apply Hsend; [done | by_compute]|].
  destruct (String.eqb _ "request-init-config");
    [apply Hsend; [done | by_compute]|].
  exists []. by rewrite app_nil_r.
Qed.

(** Everything the read loop writes comes from [handleMessage]. *)
Lemma readLoop_sent conn frames w :
  ∃ new, sent (readLoop conn frames w).1 = sent w ++ new ∧
         Forall (λ p, p.1 = conn ∧ Type_ p.2 ∈ reply_types) new.
Proof.
  revert w. induction frames as [|f rest IH]; intros w; simpl.
  - exists []. by rewrite app_nil_r.
  - destruct f as [msg| |]; try (exists []; by rewrite app_nil_r).
    destruct (handleMessage_sent conn msg w) as (n1 & E1 & H1).
    destruct (IH (handleMessage conn msg w)) as (n2 & E2 & H2).
    exists (n1 ++ n2). rewrite E2, E1, app_assoc. split; [done|].
    by apply Forall_app.
Qed.

(** *** Frames the router has no case for *)

(** C4. A frame whose type is none of the case labels of [handleMessage]
    (in particular every type outside the fifteen the protocol
    enumerates) is logged and nothing else happens: no frame is written,
    no handler is entered, the registry and the connections are as before,
    and the read loop goes on to the next frame; with no further frame it
    waits on the open connection. *)
Theorem C4_unknown_type_logged_only conn msg rest w :
  Type_ msg ∉ handled_types →
  conn ∉ closed w →
  let w' := handleMessage conn msg w in
  logs w' = logs w ++ [LogUnknownType (Type_ msg)] ∧
  sent w' = sent w ∧
  calls w' = calls w ∧
  clients w' = clients w ∧
  closed w' = closed w ∧
  readLoop conn (Decoded msg :: rest) w = readLoop conn rest w' ∧
  readLoop conn [Decoded msg] w = (w', AwaitingFrame).
Proof.
  intros Hty Hopen w'. subst w'. simpl.
  by rewrite (handleMessage_default conn msg w Hty).
Qed.

Lemma C4_unknown_type_logged_only_witness :
  let w := handleRegister 1 (new_world default_config) in
  let msg := {| Type_ := "foo"; Data := JNull |} in
  logs (handleMessage 1 msg w) = logs w ++ [LogUnknownType "foo"] ∧
  sent (handleMessage 1 msg w) = sent w ∧
  readLoop 1 [Decoded msg] w = (handleMessage 1 msg w, AwaitingFrame).
Proof.
  intros w msg.
  destruct (C4_unknown_type_logged_only 1 msg [] w) as (H1 & H2 & _ & _ & _ & _ & H7).
  - by_compute.
  - by_compute.
  - exact (conj H1 (conj H2 H7)).
Defined.

(** *** interrupt-signal *)






(** A request, an interrupt, a request: the two replies, in order, and
    nothing else. *)
Example interrupt_between_requests :
  let w := handleRegister 1 (new_world default_config) in
  let ask ty := Decoded {| Type_ := ty; Data := JNull |} in
  types_sent_to 1
    (readLoop 1 [ask "text-input"; ask "interrupt-signal"; ask "fetch-configs"] w).1
  = ["llm-response"; "configs"].
Proof. reflexivity. Qed.

(** Audio chunks, then an interrupt: [processAudioData] has returned
    before the interrupt is read, nothing is written for either, and the
    next request is answered as usual. *)
Example interrupt_after_audio :
  let w := handleRegister 1 (new_world default_config) in
  let ask ty := Decoded {| Type_ := ty; Data := JNull |} in
  let out := readLoop 1 [ask "mic-audio-data"; ask "mic-audio-data";
                         ask "interrupt-signal"; ask "text-input"] w in
  types_sent_to 1 out.1 = ["llm-response"] ∧
  calls out.1 = [H_processAudioData; H_processAudioData; H_processTextInput] ∧
  out.2 = AwaitingFrame.
Proof. split_and!; reflexivity. Qed.

(** *** text-input *)

(** C2, as the code has it. A [text-input] frame enters
    [processTextInput] and no other handler (no speech recognition or
    voice detection is involved); the connection it came from is then
    written exactly one frame, of type [llm-response], carrying the reply
    text and an empty audio url. When that write fails nothing is sent,
    the failure is logged and the connection is closed. *)
Theorem C2_text_input_single_response conn data w :
  let w' := handleMessage conn {| Type_ := "text-input"; Data := data |} w in
  let response :=
    {| Type_ := "llm-response";
       Data := JObj [("text", JStr "这是模拟的LLM响应"); ("audioUrl", JStr EmptyString)] |} in
  calls w' = calls w ++ [H_processTextInput] ∧
  if decide (conn ∈ closed w ∪ broken w)
  then sent w' = sent w ∧ closed w' = {[conn]} ∪ closed w ∧
       logs w' = logs w ++ [LogTextInput data; LogSendFailed conn]
  else sent w' = sent w ++ [(conn, response)] ∧ closed w' = closed w ∧
       logs w' = logs w ++ [LogTextInput data].
Proof.
  intros w' response. subst w'.
  rewrite handleMessage_text_input by done. unfold processTextInput. simpl.
  destruct (decide _) as [H|H].
  - rewrite sendToClient_fail by done. simpl. by rewrite <- app_assoc.
  - by rewrite sendToClient_ok by done.
Qed.

(** C2 fails as stated: after [text-input {"text":"hello"}] the frames
    written to the client are not a run of [llm-partial], one [llm-final],
    a run of [tts-chunk] and one [tts-done]. *)
Lemma C2_no_streamed_reply :
  let w := handleRegister 1 (new_world default_config) in
  let msg := {| Type_ := "text-input"; Data := JObj [("text", JStr "hello")] |} in
  ¬ ∃ partials chunks : list string,
      types_sent_to 1 (handleMessage 1 msg w)
        = partials ++ ["llm-final"] ++ chunks ++ ["tts-done"] ∧
      Forall (λ t, t = "llm-partial") partials ∧
      Forall (λ t, t = "tts-chunk") chunks.
Proof.
  intros w msg (partials & chunks & E & _ & _).
  assert (Hin : "tts-done" ∈ types_sent_to 1 (handleMessage 1 msg w)).
  { rewrite E. rewrite !elem_of_app. right; right; right. by left. }
  revert Hin. by_compute.
Qed.

(** *** Frames that do not decode *)

Lemma handleRegister_closed conn w : closed (handleRegister conn w) = closed w.
Proof. done. Qed.

Lemma handleUnregister_not_member conn w : conn ∉ members (handleUnregister conn w).
Proof.
  unfold handleUnregister, members.
  destruct (clients w !! conn) eqn:E; simpl.
  - rewrite dom_delete_L. apply not_elem_of_difference. right.
    by apply elem_of_singleton.
  - by apply not_elem_of_dom.
Qed.

(** C5, as the code has it. A frame that cannot be decoded makes
    [ReadJSON] return an error: the error is logged, the read loop is left
    without looking at any later frame, and the deferred calls unregister
    and close the connection. *)
Theorem C5_malformed_frame_ends_connection conn rest w :
  conn ∉ closed w →
  let out := HandleWebSocket (Some conn) (Malformed :: rest) w in
  out.2 = Returned ∧
  LogReadFailed ErrMalformed ∈ logs out.1 ∧
  conn ∈ closed out.1 ∧
  (conn ∉ members out.1) ∧
  sent out.1 = sent w ∧
  calls out.1 = calls w.
Proof.
  intros Hopen out. subst out. unfold HandleWebSocket. simpl readLoop.
  cbv beta iota.
  set (w1 := log_add _ (handleRegister conn w)).
  split; [done|]. split; [|split; [|split; [|split]]].
  - unfold handleUnregister. simpl.
    rewrite lookup_insert_eq. simpl. rewrite !elem_of_app.
    left. right. by left.
  - simpl. set_solver.
  - apply (handleUnregister_not_member conn w1).
  - unfold handleUnregister. simpl. by rewrite lookup_insert_eq.
  - unfold handleUnregister. simpl. by rewrite lookup_insert_eq.
Qed.

Lemma C5_malformed_frame_ends_connection_witness :
  let out := HandleWebSocket (Some 1) [Malformed] (new_world default_config) in
  out.2 = Returned ∧ 1 ∈ closed out.1 ∧ 1 ∉ members out.1.
Proof.
  destruct (C5_malformed_frame_ends_connection 1 [] (new_world default_config))
    as (H1 & _ & H3 & H4 & _).
  - by_compute.
  - exact (conj H1 (conj H3 H4)).
Defined.

(** C5 fails as stated: a malformed frame ends the session. The handler
    returns with the connection closed and out of the registry, and the
    well-formed [text-input] frame behind it is never handled. *)
Lemma C5_malformed_frame_closes :
  let later := {| Type_ := "text-input"; Data := JObj [("text", JStr "hello")] |} in
  let out := HandleWebSocket (Some 1) [Malformed; Decoded later] (new_world default_config) in
  out.2 = Returned ∧ 1 ∈ closed out.1 ∧ (1 ∉ members out.1) ∧
  sent out.1 = [] ∧ calls out.1 = [].
Proof.
  intros later out.
  repeat split; first [by_compute | vm_compute; reflexivity].
Qed.

(** *** The fifteen enumerated inbound types *)

Lemma sendToClient_calls conn msg w : calls (sendToClient conn msg w) = calls w.
Proof.
  destruct (decide (conn ∈ closed w ∪ broken w)).
  - by rewrite sendToClient_fail.
  - by rewrite sendToClient_ok.
Qed.

(** C8, as the code has it. Of the fifteen enumerated inbound types, four
    have a case in the router and are dispatched to exactly one handler,
    the one keyed by the type: [text-input], [mic-audio-data],
    [fetch-configs] and [request-init-config]. The other eleven take the
    default branch: they are logged as unknown and no handler is entered. *)
Theorem C8_enumerated_types_dispatch conn data w ty :
  ty ∈ ["mic-audio-data"; "mic-audio-end"; "text-input"; "ai-speak-signal";
        "interrupt-signal"; "fetch-history-list"; "fetch-and-set-history";
        "create-new-history"; "delete-history"; "heartbeat";
        "add-client-to-group"; "remove-client-from-group";
        "request-group-info"; "request-init-config"; "fetch-configs"] →
  let w' := handleMessage conn {| Type_ := ty; Data := data |} w in
  (ty = "text-input" ∧ calls w' = calls w ++ [H_processTextInput]) ∨
  (ty = "mic-audio-data" ∧ calls w' = calls w ++ [H_processAudioData]) ∨
  (ty = "fetch-configs" ∧ calls w' = calls w ++ [H_sendConfigs]) ∨
  (ty = "request-init-config" ∧ calls w' = calls w ++ [H_sendInitConfig]) ∨
  (ty ∈ ["mic-audio-end"; "ai-speak-signal"; "interrupt-signal";
         "fetch-history-list"; "fetch-and-set-history"; "create-new-history";
         "delete-history"; "heartbeat"; "add-client-to-group";
         "remove-client-from-group"; "request-group-info"] ∧
   w' = log_add (LogUnknownType ty) w).
Proof.
  intros Hin w'. subst w'.
  repeat (apply elem_of_cons in Hin as [->|Hin]);
    [..|by apply elem_of_nil in Hin];
    first
      [ left; split; [done|]; rewrite handleMessage_text_input by done;
        unfold processTextInput; by rewrite sendToClient_calls
      | right; left; split; [done|];
        by rewrite handleMessage_mic_audio_data by done
      | right; right; left; split; [done|];
        rewrite handleMessage_fetch_configs by done;
        unfold sendConfigs; by rewrite sendToClient_calls
      | right; right; right; left; split; [done|];
        rewrite handleMessage_request_init_config by done;
        unfold sendInitConfig; by rewrite sendToClient_calls
      | right; right; right; right; split; [by_compute|];
        apply handleMessage_default; simpl; by_compute ].
Qed.

Lemma C8_enumerated_types_dispatch_witness :
  let w := handleRegister 1 (new_world default_config) in
  calls (handleMessage 1 {| Type_ := "fetch-configs"; Data := JNull |} w)
    = calls w ++ [H_sendConfigs].
Proof.
  intros w.
  destruct (C8_enumerated_types_dispatch 1 JNull w "fetch-configs")
    as [[E _]|[[E _]|[[_ H]|[[E _]|[E _]]]]];
    [by_compute | discriminate E | discriminate E | exact H | discriminate E
    | exfalso; revert E; by_compute].
Defined.

(** C8 fails as stated: [heartbeat] is one of the fifteen enumerated
    types, and the router enters no handler for it. *)
Lemma C8_heartbeat_not_dispatched :
  let w := handleRegister 1 (new_world default_config) in
  ¬ ∃ h, calls (handleMessage 1 {| Type_ := "heartbeat"; Data := JNull |} w)
           = calls w ++ [h].
Proof. intros w [h E]. vm_compute in E. discriminate E. Qed.

(** *** The registry: register and unregister *)

Lemma handleRegister_clients conn w :
  clients (handleRegister conn w) = <[conn := true]> (clients w).
Proof. done. Qed.

Lemma handleUnregister_clients conn w :
  clients (handleUnregister conn w) = delete conn (clients w).
Proof.
  unfold handleUnregister. destruct (clients w !! conn) eqn:E; simpl; [done|].
  symmetry. by apply delete_id.
Qed.

Lemma handleUnregister_absent conn w :
  conn ∉ members w →
  handleUnregister conn w = log_add (LogDisconnected (size (clients w))) w.
Proof.
  unfold members. intros H. apply not_elem_of_dom in H.
  unfold handleUnregister. by rewrite H.
Qed.

(** C7, as the code has it. Registering a connection that is already a
    member leaves the member set unchanged (and the registry itself, its
    entries all being [true]); unregistering a connection that is not a
    member changes nothing and fails nothing: it is only logged; and when
    the connection is not yet a member, registering then unregistering it
    gives back the registry as it was. *)
Theorem C7_register_unregister conn w :
  (conn ∈ members w → members (handleRegister conn w) = members w) ∧
  (clients w !! conn = Some true → clients (handleRegister conn w) = clients w) ∧
  (conn ∉ members w →
     handleUnregister conn w = log_add (LogDisconnected (size (clients w))) w) ∧
  (conn ∉ members w →
     clients (handleUnregister conn (handleRegister conn w)) = clients w ∧
     members (handleUnregister conn (handleRegister conn w)) = members w).
Proof.
  split; [|split; [|split]].
  - unfold members. intros Hin. rewrite handleRegister_clients, dom_insert_L.
    apply set_eq. intros x. rewrite elem_of_union, elem_of_singleton.
    split; [intros [->|]; done | by right].
  - intros Hin. rewrite handleRegister_clients. by apply insert_id.
  - apply handleUnregister_absent.
  - unfold members. intros Hnot. apply not_elem_of_dom in Hnot.
    assert (E : clients (handleUnregister conn (handleRegister conn w)) = clients w).
    { rewrite handleUnregister_clients, handleRegister_clients.
      by rewrite delete_insert_eq, delete_id. }
    split; [done|]. by rewrite E.
Qed.

Lemma C7_register_unregister_witness :
  let w := handleRegister 2 (new_world default_config) in
  members (handleRegister 2 w) = members w ∧
  clients (handleUnregister 1 (handleRegister 1 w)) = clients w.
Proof.
  intros w.
  destruct (C7_register_unregister 2 w) as (H1 & _).
  destruct (C7_register_unregister 1 w) as (_ & _ & _ & H4).
  split.
  - apply H1. by_compute.
  - apply H4. by_compute.
Defined.

(** C7 fails as stated: with connection 1 already a member, registering
    it and then unregistering it does not give the member set back. *)
Lemma C7_register_unregister_member :
  let w := handleRegister 1 (new_world default_config) in
  members (handleUnregister 1 (handleRegister 1 w)) ≠ members w.
Proof. intros w. by_compute. Qed.

(** *** Broadcast *)

Lemma sent_to_app c w l :
  (filter (λ p : Conn * Message, p.1 = c) (sent w ++ l)).*2
  = sent_to c w ++ (filter (λ p : Conn * Message, p.1 = c) l).*2.
Proof. unfold sent_to. by rewrite filter_app, fmap_app. Qed.

(** The three ways one turn of the [range] loop goes. *)
Lemma broadcastLoop_cons_absent message c rest w :
  clients w !! c = None →
  broadcastLoop message (c :: rest) w = broadcastLoop message rest w.
Proof. intros E. simpl. by rewrite E. Qed.

Lemma broadcastLoop_cons_ok message c rest w :
  c ∈ members w → c ∉ closed w ∪ broken w →
  broadcastLoop message (c :: rest) w =
  broadcastLoop message rest
    {| config := config w; clients := clients w; closed := closed w;
       broken := broken w; sent := sent w ++ [(c, message)]; logs := logs w;
       calls := calls w |}.
Proof.
  unfold members. intros [b E]%elem_of_dom Hok. simpl. rewrite E.
  unfold WriteJSON. by rewrite decide_False.
Qed.

Lemma broadcastLoop_cons_fail message c rest w :
  c ∈ members w → c ∈ closed w ∪ broken w →
  broadcastLoop message (c :: rest) w =
  broadcastLoop message rest
    (connClose c (set_clients (λ cl, delete c cl) (log_add (LogBroadcastFailed c) w))).
Proof.
  unfold members. intros [b E]%elem_of_dom Hbad. simpl. rewrite E.
  unfold WriteJSON. by rewrite decide_True.
Qed.

(** What the loop has done once it has gone through [order], member by
    member. *)
Lemma broadcastLoop_inv message order :
  ∀ w, NoDup order → (∀ c, c ∈ order → c ∈ members w) →
  let w' := broadcastLoop message order w in
  (∀ c, c ∈ members w' ↔ c ∈ members w ∧ ¬ (c ∈ order ∧ c ∈ closed w ∪ broken w)) ∧
  (∀ c, c ∈ closed w' ↔ c ∈ closed w ∨ (c ∈ order ∧ c ∈ broken w)) ∧
  broken w' = broken w ∧
  (∀ c, sent_to c w' =
        sent_to c w ++
        if decide (c ∈ order ∧ c ∉ closed w ∪ broken w) then [message] else []) ∧
  (∀ c, c ∈ order → c ∈ closed w ∪ broken w → LogBroadcastFailed c ∈ logs w') ∧
  (∀ e, e ∈ logs w → e ∈ logs w').
Proof.
  induction order as [|c0 rest IH]; intros w Hnd Hmem w'; subst w'.
  - simpl. split_and!; try done.
    + intros c. split; [|by intros [H _]].
      intros H. split; [done|]. intros [H0 _]. by apply elem_of_nil in H0.
    + intros c. split; [by left|].
      intros [H|[H _]]; [done | by apply elem_of_nil in H].
    + intros c. by rewrite app_nil_r.
    + intros c H. by apply elem_of_nil in H.
  - apply NoDup_cons in Hnd as [Hc0 Hnd].
    assert (Hc0m : c0 ∈ members w) by (apply Hmem; by left).
    destruct (decide (c0 ∈ closed w ∪ broken w)) as [Hbad|Hok].
    + rewrite broadcastLoop_cons_fail by done.
      set (w1 := connClose c0 _).
      assert (Hm1 : ∀ c, c ∈ members w1 ↔ c ∈ members w ∧ c ≠ c0).
      { intros c. unfold members, w1. simpl. rewrite dom_delete_L.
        rewrite elem_of_difference, elem_of_singleton. done. }
      assert (Hcl1 : ∀ c, c ∈ closed w1 ↔ c = c0 ∨ c ∈ closed w).
      { intros c. unfold w1. simpl. by rewrite elem_of_union, elem_of_singleton. }
      destruct (IH w1 Hnd) as (I1 & I2 & I3 & I4 & I5 & I6).
      { intros c Hc. apply Hm1. split; [apply Hmem; by right|].
        intros ->. done. }
      assert (Hbad1 : ∀ c, c ≠ c0 →
                c ∈ closed w1 ∪ broken w1 ↔ c ∈ closed w ∪ broken w).
      { intros c Hne. rewrite !elem_of_union, Hcl1. unfold w1. simpl. naive_solver. }
      split_and!.
      * intros c. rewrite I1, Hm1, elem_of_cons. split.
        -- intros [[H1 H2] H3]. split; [done|].
           intros [[->|Hin] Hb]; [done|].
           apply H3. split; [done|]. by apply Hbad1.
        -- intros [H1 H2].
           assert (Hne : c ≠ c0).
           { intros ->. apply H2. split; [by left|done]. }
           split; [done|]. intros [Hin Hb]. apply H2. split; [by right|].
           by apply Hbad1.
      * intros c. rewrite I2, Hcl1, elem_of_cons. split.
        -- intros [[->|H]|[Hin Hb]].
           ++ apply elem_of_union in Hbad as [Hbad|Hbad]; [by left|].
              right. split; [by left|done].
           ++ by left.
           ++ right. split; [by right|done].
        -- intros [H|[[->|Hin] Hb]].
           ++ left. by right.
           ++ left. by left.
           ++ right. done.
      * by rewrite I3.
      * intros c. rewrite I4. f_equal.
        destruct (decide (c = c0)) as [->|Hne].
        -- rewrite !decide_False; [done| |]; [by intros [_ H]|by intros [H _]].
        -- apply decide_ext. rewrite elem_of_cons, (Hbad1 c Hne). naive_solver.
      * intros c [->|Hin]%elem_of_cons Hb.
        -- apply I6. unfold w1. simpl. rewrite elem_of_app. right. by left.
        -- apply I5; [done|]. apply Hbad1; [|done]. intros ->. done.
      * intros e He. apply I6. unfold w1. simpl. rewrite elem_of_app. by left.
    + rewrite broadcastLoop_cons_ok by done.
      set (w1 := Build_World _ _ _ _ _ _ _).
      destruct (IH w1 Hnd) as (I1 & I2 & I3 & I4 & I5 & I6).
      { intros c Hc. apply Hmem. by right. }
      change (members w1) with (members w) in *.
      change (closed w1) with (closed w) in *.
      change (broken w1) with (broken w) in *.
      change (logs w1) with (logs w) in *.
      split_and!.
      * intros c. rewrite I1, elem_of_cons. split.
        -- intros [H1 H2]. split; [done|].
           intros [[->|Hin] Hb]; [done|]. by apply H2.
        -- intros [H1 H2]. split; [done|].
           intros [Hin Hb]. apply H2. split; [by right|done].
      * intros c. rewrite I2, elem_of_cons. split.
        -- intros [H|[Hin Hb]]; [by left|]. right. split; [by right|done].
        -- intros [H|[[->|Hin] Hb]].
           ++ by left.
           ++ exfalso. apply Hok. apply elem_of_union. by right.
           ++ by right.
      * done.
      * intros c. rewrite I4. unfold sent_to at 1. unfold w1 at 1. simpl sent.
        rewrite sent_to_app, <- app_assoc. f_equal.
        rewrite filter_cons, filter_nil. simpl.
        destruct (decide (c0 = c)) as [->|Hne].
        -- rewrite decide_False by (by intros [H _]).
           rewrite decide_True; [done|]. split; [by left|done].
        -- simpl. apply decide_ext. rewrite elem_of_cons. naive_solver.
      * intros c [->|Hin]%elem_of_cons Hb; [done|]. by apply I5.
      * done.
Qed.

Lemma elem_of_failing c w :
  c ∈ failing w ↔ c ∈ members w ∧ c ∈ closed w ∪ broken w.
Proof. unfold failing. rewrite elem_of_filter. naive_solver. Qed.

(** C6. A broadcast visits the registry in whatever order the [range]
    produces it ([handleBroadcast] is the loop run on one such order).
    With [failing w] the members the write fails for: every other member
    is written the message, exactly once; a failing member is written
    nothing and its failure is logged, so the loop reached it; nothing is
    written to a connection outside the registry; the members left are
    those that did not fail; and the failing ones, and only they, are
    closed in addition. *)
Theorem C6_broadcast_isolates_failures message order w :
  order ≡ₚ elements (members w) →
  let w' := broadcastLoop message order w in
  (∀ c, c ∈ members w → c ∉ failing w → sent_to c w' = sent_to c w ++ [message]) ∧
  (∀ c, c ∈ failing w → sent_to c w' = sent_to c w ∧ LogBroadcastFailed c ∈ logs w') ∧
  (∀ c, c ∉ members w → sent_to c w' = sent_to c w) ∧
  members w' = members w ∖ failing w ∧
  closed w' = closed w ∪ failing w.
Proof.
  intros Hperm w'. subst w'.
  assert (Hin : ∀ c, c ∈ order ↔ c ∈ members w).
  { intros c. by rewrite Hperm, elem_of_elements. }
  assert (Hnd : NoDup order).
  { rewrite Hperm. apply NoDup_elements. }
  destruct (broadcastLoop_inv message order w Hnd) as (I1 & I2 & I3 & I4 & I5 & I6).
  { intros c. apply Hin. }
  split_and!.
  - intros c Hm Hf. rewrite I4. rewrite decide_True; [done|].
    split; [by apply Hin|]. intros Hb. apply Hf, elem_of_failing. done.
  - intros c [Hm Hb]%elem_of_failing. split.
    + rewrite I4. rewrite decide_False; [by rewrite app_nil_r|]. by intros [_ H].
    + apply I5; [by apply Hin | done].
  - intros c Hm. rewrite I4. rewrite decide_False; [by rewrite app_nil_r|].
    intros [H _]. by apply Hm, Hin.
  - apply set_eq. intros c.
    rewrite I1, elem_of_difference, elem_of_failing, Hin. naive_solver.
  - apply set_eq. intros c.
    rewrite I2, elem_of_union, elem_of_failing, Hin, elem_of_union. naive_solver.
Qed.

Lemma C6_broadcast_isolates_failures_witness :
  let w := connClose 2 (handleRegister 3 (handleRegister 2
             (handleRegister 1 (new_world default_config)))) in
  let message := {| Type_ := "configs"; Data := JNull |} in
  let w' := handleBroadcast message w in
  sent_to 1 w' = sent_to 1 w ++ [message] ∧
  sent_to 3 w' = sent_to 3 w ++ [message] ∧
  sent_to 2 w' = sent_to 2 w ∧
  members w' = members w ∖ failing w.
Proof.
  intros w message w'.
  destruct (C6_broadcast_isolates_failures message (elements (members w)) w)
    as (H1 & H2 & _ & H4 & _); [reflexivity|].
  split_and!.
  - apply H1; by_compute.
  - apply H1; by_compute.
  - apply H2. by_compute.
  - exact H4.
Defined.

(** With connections 1, 2, 3 registered and 2 closed, a broadcast reaches
    1 and 3 and drops 2. *)
Example broadcast_one_closed :
  let w := connClose 2 (handleRegister 3 (handleRegister 2
             (handleRegister 1 (new_world default_config)))) in
  let w' := handleBroadcast {| Type_ := "configs"; Data := JNull |} w in
  elements (members w') = [3; 1] ∧ elements (closed w') = [2] ∧
  length (sent w') = 2.
Proof. intros w w'. split_and!; vm_compute; reflexivity. Qed.

End WsHandlerFacts.

Section AudioHandlerFacts.
Import AudioHandler.

Implicit Types (svc : Services) (tr : list Event).

(** The run with the services as written: the three stages are entered in
    order and the reply comes back with the generated audio. *)
Example processAudioData_stubs :
  processAudioData stubs [] "wav" [] =
    ([LogProcess "wav" 0; CallASR [] "wav"; CallLLM "用户说的内容";
      CallTTS "AI的回复内容"],
     Ok {| Text := "AI的回复内容"; AudioURL := "/audio/generated.mp3" |}).
Proof. reflexivity. Qed.

Lemma bind_run {A B} (m : M A) (k : A → M B) tr :
  (m ≫= k) tr =
  match m tr with
  | (tr1, Ok a) => k a tr1
  | (tr1, Err e) => (tr1, Err e)
  end.
Proof. reflexivity. Qed.

(** One stage call: the call is recorded, then the service decides. *)
Lemma callASRService_run svc audioData format tr :
  callASRService svc audioData format tr
  = (tr ++ [CallASR audioData format], asr_service svc audioData format).
Proof. reflexivity. Qed.

Lemma callLLMService_run svc inputText tr :
  callLLMService svc inputText tr
  = (tr ++ [CallLLM inputText], llm_service svc inputText).
Proof. reflexivity. Qed.

Lemma callTTSService_run svc text tr :
  callTTSService svc text tr = (tr ++ [CallTTS text], tts_service svc text).
Proof. reflexivity. Qed.

(** The run, stage by stage. *)
Lemma processAudioData_run svc audioData format tr :
  processAudioData svc audioData format tr =
  let tr := tr ++ [LogProcess format (length audioData); CallASR audioData format] in
  match asr_service svc audioData format with
  | Err e => (tr, Err e)
  | Ok text =>
      let tr := tr ++ [CallLLM text] in
      match llm_service svc text with
      | Err e => (tr, Err e)
      | Ok reply =>
          let tr := tr ++ [CallTTS reply] in
          match tts_service svc reply with
          | Err e => (tr, Err e)
          | Ok audioURL => (tr, Ok {| Text := reply; AudioURL := audioURL |})
          end
      end
  end.
Proof.
  unfold processAudioData, callASRService, callLLMService, callTTSService.
  unfold emit, lift, mbind, M_bind, mret, M_ret. cbv beta iota zeta.
  rewrite <- app_assoc. simpl app.
  destruct (asr_service svc audioData format) as [text|e]; [|done].
  destruct (llm_service svc text) as [reply|e]; [|done].
  by destruct (tts_service svc reply) as [audioURL|e].
Qed.


End AudioHandlerFacts.

Section WsClientFacts.
Import WsClient.

Implicit Types (e : Env) (evs : list Event).

Lemma filter_insert_length {A} (P : A → Prop) `{!∀ x, Decision (P x)}
    (l : list A) i (old new : A) :
  l !! i = Some old →
  length (filter P (<[i := new]> l)) + (if decide (P old) then 1 else 0)
  = length (filter P l) + (if decide (P new) then 1 else 0).
Proof.
  revert i. induction l as [|a l IH]; intros [|i] Hl; simplify_eq/=.
  - rewrite !filter_cons. repeat case_decide; simpl; lia.
  - specialize (IH i Hl). rewrite !filter_cons.
    destruct (decide (P a)); simpl; lia.
Qed.

Lemma live_set_closed e i s :
  sockets e !! i = Some s → s ≠ CLOSED →
  live (set_sockets (λ l, <[i := CLOSED]> l) e) + 1 = live e.
Proof.
  intros H Hs. unfold live. simpl.
  pose proof (filter_insert_length (λ s, s ≠ CLOSED) (sockets e) i s CLOSED H) as E.
  rewrite decide_True in E by done. rewrite decide_False in E by (by intros ?).
  lia.
Qed.

Lemma live_set_open e i s s' :
  sockets e !! i = Some s → s ≠ CLOSED → s' ≠ CLOSED →
  live (set_sockets (λ l, <[i := s']> l) e) = live e.
Proof.
  intros H Hs Hs'. unfold live. simpl.
  pose proof (filter_insert_length (λ s, s ≠ CLOSED) (sockets e) i s s' H) as E.
  rewrite !decide_True in E by done. lia.
Qed.

Lemma live_connect created e : live (connect created e) ≤ live e + 1.
Proof.
  unfold connect, live. destruct created; simpl; [|lia].
  rewrite filter_app, length_app. simpl. lia.
Qed.

Lemma Inv_new_service created : Inv (new_service created).
Proof. destruct created; unfold Inv, live; simpl; lia. Qed.

Lemma close_live e : live (close e) = live e.
Proof.
  unfold close. destruct (ws (this e)) as [i|]; [|done].
  destruct (sockets e !! i) as [[]|] eqn:E; try done;
    by apply (live_set_open e i _ CLOSING E).
Qed.

Lemma close_this e : this (close e) = this e ∧ pending (close e) = pending e.
Proof.
  unfold close. destruct (ws (this e)) as [i|]; [|done].
  by destruct (sockets e !! i) as [[]|].
Qed.

(** One event keeps the invariant; an event other than a socket opening
    leaves the counter where it was, or, for a timer, one higher. *)
Lemma step_Inv ev e e' :
  is_connect ev = false →
  step ev e = Some e' → Inv e →
  Inv e' ∧
  (is_open ev = false →
   reconnectAttempts (this e') =
   reconnectAttempts (this e) + (if is_attempt ev then 1 else 0)).
Proof.
  intros Hev Hstep (H1 & H2 & H3).
  destruct ev as [i|i|i|i|created| |created]; simpl in Hstep; [..|done].
  - destruct (sockets e !! i) as [[]|] eqn:E; simplify_eq.
    split; [|done]. unfold Inv. simpl.
    change (live (onopen ?x)) with (live x).
    pose proof (live_set_open e i CONNECTING OPEN E ltac:(done) ltac:(done)) as HL.
    unfold live in *. simpl in *. lia.
  - destruct (sockets e !! i) as [[]|] eqn:E; simplify_eq.
    split; [done|]. simpl. lia.
  - destruct (sockets e !! i) as [[]|] eqn:E; simplify_eq;
      (split; [done|]; simpl; lia).
  - assert (∃ s, sockets e !! i = Some s ∧ s ≠ CLOSED ∧
                 e' = onclose (set_sockets (λ l, <[i := CLOSED]> l) e))
      as (s & E & Hs & ->).
    { destruct (sockets e !! i) as [[]|] eqn:E; simplify_eq; eauto. }
    pose proof (live_set_closed e i s E Hs) as HL.
    unfold onclose. simpl.
    destruct (Nat.ltb_spec (reconnectAttempts (this e)) (maxReconnectAttempts (this e)));
      (split; [|simpl; lia]); unfold Inv, live in *; simpl in *;
      rewrite ?length_app; simpl; lia.
  - destruct (pending e) as [|d rest] eqn:E; simplify_eq.
    split; [|unfold reconnect, connect; destruct created; simpl; lia].
    pose proof (live_connect created
      (set_this (λ s, set_reconnectAttempts (reconnectAttempts s + 1) s)
         (set_pending (λ _, rest) e))) as HL.
    change (live (set_this ?f (set_pending ?g e))) with (live e) in HL.
    unfold Inv. simpl in H1, H2.
    unfold reconnect in *. destruct created; simpl in *; lia.
  - simplify_eq. destruct (close_this e) as [Et Ep].
    split; [|rewrite Et; simpl; lia].
    unfold Inv. by rewrite close_live, Et, Ep.
Qed.






(** The bound is reached, and then nothing more is scheduled: after five
    failed attempts in a row the sixth close leaves no timer behind. *)
Example five_attempts_then_none :
  let evs := [SocketCloses 0; TimerFires true; SocketCloses 1; TimerFires true;
              SocketCloses 2; TimerFires true; SocketCloses 3; TimerFires true;
              SocketCloses 4; TimerFires true; SocketCloses 5] in
  attempts_in evs = 5 ∧
  (reconnectAttempts ∘ this <$> run evs (new_service true)) = Some 5 ∧
  (pending <$> run evs (new_service true)) = Some [] ∧
  (run (evs ++ [TimerFires true]) (new_service true)) = None.
Proof. intros evs. split_and!; vm_compute; reflexivity. Qed.

End WsClientFacts.

Section AudioStoreFacts.
Import AudioStore.

Implicit Types (st : State) (a : Action).

Lemma removelast_length {A} (l : list A) : length (removelast l) = length l - 1.
Proof.
  induction l as [|x [|y l] IH]; [done..|].
  change (removelast (x :: y :: l)) with (x :: removelast (y :: l)).
  simpl length in *. lia.
Qed.

(** What [addAudio] leaves in the list. *)
Lemma addAudio_recentAudio d now1 now2 st :
  let entry := {| id := now1;
                  name := "Audio " +:+ pretty (length (recentAudio st) + 1);
                  url := ad_url d;
                  timestamp := now2 |} in
  recentAudio (state_of (addAudio (Some d) now1 now2 st)) =
  if 10 <=? length (recentAudio st)
  then removelast (entry :: recentAudio st)
  else entry :: recentAudio st.
Proof.
  intros entry. unfold addAudio. cbn [state_of set_recentAudio recentAudio].
  fold entry. cbn [length].
  destruct (Nat.ltb_spec 10 (S (length (recentAudio st))));
    destruct (Nat.leb_spec 10 (length (recentAudio st))); first [done | lia].
Qed.

Lemma act_length a st :
  length (recentAudio st) ≤ 10 → length (recentAudio (act a st)) ≤ 10.
Proof.
  assert (Hadd : ∀ d n1 n2, length (recentAudio st) ≤ 10 →
            length (recentAudio (state_of (addAudio d n1 n2 st))) ≤ 10).
  { intros [d|] n1 n2 H; [|done]. rewrite addAudio_recentAudio.
    destruct (Nat.leb_spec 10 (length (recentAudio st))).
    - rewrite removelast_length. simpl. lia.
    - simpl. lia. }
  intros H. destruct a as [d n1 n2| | | |u n1 n2]; try done.
  - by apply Hadd.
  - apply (Hadd (Some {| ad_url := u |}) n1 n2 H).
Qed.

Lemma acts_length l : ∀ st,
  length (recentAudio st) ≤ 10 → length (recentAudio (acts l st)) ≤ 10.
Proof.
  unfold acts. induction l as [|a l IH]; intros st H; simpl; [done|].
  apply IH. by apply act_length.
Qed.

(** C10. In a state holding at most 10 entries, [addAudio] puts the new
    entry at index 0, in front of the entries held, and when that makes 11
    it drops the last one, the oldest; so the list never grows beyond 10:
    every action of the store keeps the bound, and so does any sequence of
    them. The entry added last is the first of the list. *)
Theorem C10_recentAudio_at_most_ten st :
  length (recentAudio st) ≤ 10 →
  (∀ d now1 now2,
     let entry := {| id := now1;
                     name := "Audio " +:+ pretty (length (recentAudio st) + 1);
                     url := ad_url d;
                     timestamp := now2 |} in
     let st' := state_of (addAudio (Some d) now1 now2 st) in
     addAudio (Some d) now1 now2 st = Returns st' ∧
     recentAudio st' !! 0 = Some entry ∧
     recentAudio st' =
       (if decide (length (recentAudio st) = 10)
        then entry :: removelast (recentAudio st)
        else entry :: recentAudio st) ∧
     length (recentAudio st') ≤ 10) ∧
  (∀ a, length (recentAudio (act a st)) ≤ 10) ∧
  (∀ l, length (recentAudio (acts l st)) ≤ 10).
Proof.
  intros Hlen. split_and!.
  - intros d now1 now2 entry st'.
    assert (E : recentAudio st' =
                if decide (length (recentAudio st) = 10)
                then entry :: removelast (recentAudio st)
                else entry :: recentAudio st).
    { subst st'. rewrite addAudio_recentAudio. fold entry.
      destruct (Nat.leb_spec 10 (length (recentAudio st))).
      - rewrite decide_True by lia.
        destruct (recentAudio st) as [|x l]; [simpl in *; lia | done].
      - by rewrite decide_False by lia. }
    split_and!.
    + done.
    + rewrite E. by destruct (decide _).
    + done.
    + apply (act_length (AddAudio (Some d) now1 now2) st Hlen).
  - intros a. by apply act_length.
  - intros l. by apply acts_length.
Qed.

Lemma C10_recentAudio_at_most_ten_witness :
  length (recentAudio (acts (replicate 12 (AddAudio (Some {| ad_url := Some "/a.mp3" |}) 1 2))
                            initial_state)) ≤ 10.
Proof.
  destruct (C10_recentAudio_at_most_ten initial_state) as (_ & _ & H).
  - simpl. lia.
  - apply H.
Defined.

(** Twelve recordings in a row: ten are kept, the twelfth first. *)
Example twelve_recordings :
  let add n := AddAudio (Some {| ad_url := Some "/a.mp3" |}) n n in
  let st := acts (add <$> [1; 2; 3; 4; 5; 6; 7; 8; 9; 10; 11; 12]%Z) initial_state in
  id <$> recentAudio st = [12; 11; 10; 9; 8; 7; 6; 5; 4; 3]%Z ∧
  name <$> head (recentAudio st) = Some "Audio 11".
Proof. intros add st. split; vm_compute; reflexivity. Qed.

End AudioStoreFacts.

(* ===================================================================== *)
(** * Further properties *)
(* ===================================================================== *)

Section WsHandlerSessions.
Import WsHandler.

Implicit Types (conn c : Conn) (msg : Message) (w : World).

(** What a write leaves untouched, and what it does to the connection. *)
Lemma sendToClient_frame conn r w :
  let w' := sendToClient conn r w in
  clients w' = clients w ∧ broken w' = broken w ∧ config w' = config w ∧
  if decide (conn ∈ closed w ∪ broken w)
  then closed w' = {[conn]} ∪ closed w ∧ sent w' = sent w
  else closed w' = closed w ∧ sent w' = sent w ++ [(conn, r)].
Proof.
  intros w'. subst w'. destruct (decide _) as [H|H].
  - by rewrite sendToClient_fail.
  - by rewrite sendToClient_ok.
Qed.

(** One frame handled: the registry, the transports and the configuration
    are as before; the handlers that answer write one frame to the sender,
    or close it when the write fails; the others write nothing. *)
Lemma handleMessage_frame conn msg w :
  let w' := handleMessage conn msg w in
  clients w' = clients w ∧ broken w' = broken w ∧ config w' = config w ∧
  match reply_type_of (Type_ msg) with
  | None => closed w' = closed w ∧ sent w' = sent w
  | Some ty =>
      if decide (conn ∈ closed w ∪ broken w)
      then closed w' = {[conn]} ∪ closed w ∧ sent w' = sent w
      else closed w' = closed w ∧
           ∃ r, Type_ r = ty ∧ sent w' = sent w ++ [(conn, r)]
  end.
Proof.
  intros w'. subst w'. unfold handleMessage, reply_type_of.
  destruct (String.eqb _ "text-input").
  { unfold processTextInput.
    match goal with |- context [sendToClient conn ?r ?w0] =>
      destruct (sendToClient_frame conn r w0) as (-> & -> & -> & H) end.
    split_and!; try done. simpl in H. revert H.
    destruct (decide _); intros [E1 E2]; [exact (conj E1 E2)|].
    split; [exact E1|]. eexists. split; [|exact E2]. done. }
  destruct (String.eqb _ "mic-audio-data"); [done|].
  destruct (String.eqb _ "fetch-configs").
  { unfold sendConfigs.
    match goal with |- context [sendToClient conn ?r ?w0] =>
      destruct (sendToClient_frame conn r w0) as (-> & -> & -> & H) end.
    split_and!; try done. simpl in H. revert H.
    destruct (decide _); intros [E1 E2]; [exact (conj E1 E2)|].
    split; [exact E1|]. eexists. split; [|exact E2]. done. }
  destruct (String.eqb _ "request-init-config"); [|done].
  unfold sendInitConfig.
  match goal with |- context [sendToClient conn ?r ?w0] =>
    destruct (sendToClient_frame conn r w0) as (-> & -> & -> & H) end.
  split_and!; try done. simpl in H. revert H.
  destruct (decide _); intros [E1 E2]; [exact (conj E1 E2)|].
  split; [exact E1|]. eexists. split; [|exact E2]. done.
Qed.

Lemma handleMessage_closed conn msg w :
  closed (handleMessage conn msg w) = closed w ∨
  closed (handleMessage conn msg w) = {[conn]} ∪ closed w.
Proof.
  destruct (handleMessage_frame conn msg w) as (_ & _ & _ & H).
  destruct (reply_type_of _); [|left; apply H].
  destruct (decide _); [right|left]; apply H.
Qed.

(** The read loop leaves the registry, the transports and the
    configuration alone, and closes nothing but its own connection. *)
Lemma readLoop_frame conn frames : ∀ w,
  let w' := (readLoop conn frames w).1 in
  clients w' = clients w ∧ broken w' = broken w ∧ config w' = config w ∧
  closed w ⊆ closed w' ∧ closed w' ⊆ {[conn]} ∪ closed w.
Proof.
  induction frames as [|f rest IH]; intros w; simpl.
  - split_and!; try done; set_solver.
  - destruct f as [msg| |]; [|simpl; split_and!; try done; set_solver..].
    destruct (IH (handleMessage conn msg w)) as (E1 & E2 & E3 & E4 & E5).
    destruct (handleMessage_frame conn msg w) as (F1 & F2 & F3 & _).
    rewrite E1, E2, E3, F1, F2, F3. split_and!; try done.
    + destruct (handleMessage_closed conn msg w) as [E|E]; rewrite E in E4;
        set_solver.
    + destruct (handleMessage_closed conn msg w) as [E|E]; rewrite E in E5;
        set_solver.
Qed.

Lemma filter_none {A} (P : A → Prop) `{!∀ x, Decision (P x)} (l : list A) :
  Forall (λ x, ¬ P x) l → filter P l = [].
Proof.
  induction 1 as [|x l Hx _ IH]; [done|].
  by rewrite filter_cons_False.
Qed.

(** A session, that is the read loop of one connection over any frames,
    leaves the registry and the configuration as they were, and neither
    writes to nor closes any connection but its own. *)
Theorem session_touches_only_its_connection conn frames w c :
  c ≠ conn →
  let w' := (readLoop conn frames w).1 in
  clients w' = clients w ∧ config w' = config w ∧
  (c ∈ closed w' ↔ c ∈ closed w) ∧
  sent_to c w' = sent_to c w.
Proof.
  intros Hne w'. subst w'.
  destruct (readLoop_frame conn frames w) as (E1 & _ & E3 & E4 & E5).
  destruct (readLoop_sent conn frames w) as (new & Es & Hnew).
  split_and!; try done.
  - split; [|set_solver]. intros H. apply E5 in H. set_solver.
  - unfold sent_to at 1. rewrite Es, sent_to_app.
    rewrite (filter_none _ new), app_nil_r; [done|].
    eapply Forall_impl; [exact Hnew|]. intros p [Hp _] Hc. by rewrite Hp in Hc.
Qed.

Lemma session_touches_only_its_connection_witness :
  let w := handleRegister 2 (handleRegister 1 (new_world default_config)) in
  let frames := [Decoded {| Type_ := "text-input"; Data := JNull |}; Malformed] in
  sent_to 2 (readLoop 1 frames w).1 = sent_to 2 w ∧
  clients (readLoop 1 frames w).1 = clients w.
Proof.
  intros w frames.
  destruct (session_touches_only_its_connection 1 frames w 2) as (H1 & _ & _ & H4).
  - by_compute.
  - exact (conj H4 H1).
Defined.

(** On a connection that is open and whose transport works, the replies
    follow the requests: going through the frames in order, the loop
    writes one [llm-response] per [text-input], one [configs] per
    [fetch-configs], one [set-model-and-conf] per [request-init-config],
    and nothing for any other type; it closes nothing and ends waiting for
    the next frame. *)
Theorem replies_follow_requests conn msgs : ∀ w,
  conn ∉ closed w ∪ broken w →
  let out := readLoop conn (Decoded <$> msgs) w in
  out.2 = AwaitingFrame ∧
  closed out.1 = closed w ∧
  types_sent_to conn out.1
    = types_sent_to conn w ++ omap (λ m, reply_type_of (Type_ m)) msgs.
Proof.
  induction msgs as [|msg rest IH]; intros w Hok out; subst out.
  - simpl. by rewrite app_nil_r.
  - rewrite fmap_cons. simpl readLoop.
    destruct (handleMessage_frame conn msg w) as (_ & F2 & _ & F4).
    assert (Hstep : closed (handleMessage conn msg w) = closed w ∧
              types_sent_to conn (handleMessage conn msg w)
              = types_sent_to conn w ++
                match reply_type_of (Type_ msg) with Some ty => [ty] | None => [] end).
    { destruct (reply_type_of (Type_ msg)) as [ty|].
      - rewrite decide_False in F4 by done. destruct F4 as (Ec & r & Er & Es).
        split; [done|]. unfold types_sent_to, sent_to. rewrite Es.
        rewrite filter_app, !fmap_app. f_equal.
        rewrite filter_cons_True by done. simpl. by rewrite Er.
      - destruct F4 as [Ec Es]. split; [done|].
        unfold types_sent_to, sent_to. by rewrite Es, app_nil_r. }
    destruct Hstep as [Ec Et].
    destruct (IH (handleMessage conn msg w)) as (I1 & I2 & I3).
    { by rewrite Ec, F2. }
    split_and!; [done | by rewrite I2 |].
    rewrite I3, Et, <- app_assoc. f_equal. simpl.
    by destruct (reply_type_of (Type_ msg)).
Qed.

Lemma replies_follow_requests_witness :
  let w := handleRegister 1 (new_world default_config) in
  let ask ty := {| Type_ := ty; Data := JNull |} in
  types_sent_to 1
    (readLoop 1 (Decoded <$> [ask "fetch-configs"; ask "heartbeat"; ask "text-input";
                              ask "mic-audio-data"; ask "request-init-config"]) w).1
  = ["configs"; "llm-response"; "set-model-and-conf"].
Proof.
  intros w ask.
  destruct (replies_follow_requests 1
              [ask "fetch-configs"; ask "heartbeat"; ask "text-input";
               ask "mic-audio-data"; ask "request-init-config"] w) as (_ & _ & H).
  - by_compute.
  - exact H.
Defined.

(** What a broadcast over the whole registry leaves behind. *)
Lemma broadcastLoop_result message order w :
  order ≡ₚ elements (members w) →
  let w' := broadcastLoop message order w in
  members w' = members w ∖ failing w ∧
  closed w' = closed w ∪ failing w ∧
  broken w' = broken w ∧
  ∀ c, sent_to c w' =
       sent_to c w ++
       if decide (c ∈ members w ∧ c ∉ closed w ∪ broken w) then [message] else [].
Proof.
  intros Hperm w'. subst w'.
  assert (Hin : ∀ c, c ∈ order ↔ c ∈ members w).
  { intros c. by rewrite Hperm, elem_of_elements. }
  assert (Hnd : NoDup order).
  { rewrite Hperm. apply NoDup_elements. }
  destruct (broadcastLoop_inv message order w Hnd) as (I1 & I2 & I3 & I4 & _).
  { intros c. apply Hin. }
  split_and!.
  - apply set_eq. intros c.
    rewrite I1, elem_of_difference, elem_of_failing, Hin. naive_solver.
  - apply set_eq. intros c.
    rewrite I2, elem_of_union, elem_of_failing, Hin, elem_of_union. naive_solver.
  - done.
  - intros c. rewrite I4. f_equal. apply decide_ext. by rewrite Hin.
Qed.

(** A connection that cannot be written to is never written to, whatever
    frames it sends. *)
Lemma readLoop_unwritable conn frames : ∀ w,
  conn ∈ closed w ∪ broken w →
  sent (readLoop conn frames w).1 = sent w.
Proof.
  induction frames as [|f rest IH]; intros w Hbad; simpl; [done|].
  destruct f as [msg| |]; [|done..].
  destruct (handleMessage_frame conn msg w) as (_ & F2 & _ & F4).
  assert (sent (handleMessage conn msg w) = sent w ∧
          conn ∈ closed (handleMessage conn msg w) ∪ broken (handleMessage conn msg w))
    as [Es Hbad'].
  { rewrite F2. destruct (reply_type_of (Type_ msg)).
    - rewrite decide_True in F4 by done. destruct F4 as [-> ->]. set_solver.
    - destruct F4 as [-> ->]. done. }
  rewrite IH by done. done.
Qed.

(** When the reply to a frame cannot be written because the transport of
    the connection is down, [sendToClient] closes the connection and
    leaves it in the registry. Nothing has been sent, and nothing is sent
    for any frame the session still handles; the connection stays a
    member until its handler returns or a broadcast finds it: the next
    broadcast removes it and writes it nothing. *)
Theorem failed_write_closes_but_keeps_registered conn msg w :
  conn ∈ members w →
  conn ∈ broken w →
  conn ∉ closed w →
  is_Some (reply_type_of (Type_ msg)) →
  let w' := handleMessage conn msg w in
  sent w' = sent w ∧
  conn ∈ closed w' ∧
  conn ∈ members w' ∧
  (∀ frames, sent (readLoop conn frames w').1 = sent w ∧
             conn ∈ members (readLoop conn frames w').1) ∧
  (∀ message order,
     order ≡ₚ elements (members w') →
     (conn ∉ members (broadcastLoop message order w')) ∧
     sent_to conn (broadcastLoop message order w') = sent_to conn w).
Proof.
  intros Hm Hb Hc [ty Hty] w'. subst w'.
  destruct (handleMessage_frame conn msg w) as (F1 & F2 & _ & F4).
  rewrite Hty in F4. rewrite decide_True in F4 by set_solver.
  destruct F4 as [Ec Es].
  assert (Hcl : conn ∈ closed (handleMessage conn msg w)) by (rewrite Ec; set_solver).
  assert (Hm' : conn ∈ members (handleMessage conn msg w)).
  { unfold members. by rewrite F1. }
  split_and!; try done.
  - intros frames. split.
    + rewrite readLoop_unwritable by set_solver. done.
    + destruct (readLoop_frame conn frames (handleMessage conn msg w)) as (E1 & _).
      unfold members. by rewrite E1.
  - intros message order Hperm.
    destruct (broadcastLoop_result message order _ Hperm) as (Em & _ & _ & Est).
    split.
    + rewrite Em. apply not_elem_of_difference. right.
      apply elem_of_failing. split; [done|set_solver].
    + rewrite Est. rewrite decide_False by (intros [_ H]; set_solver).
      rewrite app_nil_r. unfold sent_to. by rewrite Es.
Qed.

Lemma failed_write_closes_but_keeps_registered_witness :
  let w := handleRegister 1
             {| config := default_config; clients := ∅; closed := ∅; broken := {[1]};
                sent := []; logs := []; calls := [] |} in
  let w' := handleMessage 1 {| Type_ := "fetch-configs"; Data := JNull |} w in
  sent w' = sent w ∧ 1 ∈ closed w' ∧ 1 ∈ members w'.
Proof.
  intros w w'.
  destruct (failed_write_closes_but_keeps_registered 1
              {| Type_ := "fetch-configs"; Data := JNull |} w) as (H1 & H2 & H3 & _).
  - by_compute.
  - by_compute.
  - by_compute.
  - by eexists.
  - exact (conj H1 (conj H2 H3)).
Defined.

(** When the loop has handled all its frames, its connection is closed
    exactly when it was closed before, or its transport is down and one of
    the frames asked for a reply. *)
Lemma readLoop_closed_iff conn frames : ∀ w,
  (readLoop conn frames w).2 = AwaitingFrame →
  conn ∈ closed (readLoop conn frames w).1 ↔
  conn ∈ closed w ∨
  (conn ∈ broken w ∧
   ∃ msg, Decoded msg ∈ frames ∧ is_Some (reply_type_of (Type_ msg))).
Proof.
  induction frames as [|f rest IH]; intros w Hst; simpl in *.
  - split; [by left|]. intros [H|(_ & msg & H & _)]; [done|].
    by apply elem_of_nil in H.
  - destruct f as [msg| |]; [|done..].
    rewrite (IH _ Hst).
    destruct (handleMessage_frame conn msg w) as (_ & F2 & _ & F4).
    rewrite F2.
    assert (Hcons : ∀ P : Message → Prop,
              (∃ m, Decoded m ∈ Decoded msg :: rest ∧ P m) ↔
              P msg ∨ ∃ m, Decoded m ∈ rest ∧ P m).
    { intros P. split.
      - intros (m & [E|Hm]%elem_of_cons & HP); [left; by simplify_eq|right; eauto].
      - intros [HP|(m & Hm & HP)]; [exists msg|exists m];
          (split; [|done]); apply elem_of_cons; [by left|by right]. }
    rewrite (Hcons (λ m, is_Some (reply_type_of (Type_ m)))).
    destruct (reply_type_of (Type_ msg)) as [ty|] eqn:Ety.
    + destruct (decide (conn ∈ closed w ∪ broken w)) as [Hbad|Hok].
      * destruct F4 as [-> _]. apply elem_of_union in Hbad.
        split; [|intros _; left; set_solver].
        intros _. destruct Hbad as [H|H]; [by left|right]. split; [done|].
        left. by eexists.
      * destruct F4 as [-> _]. apply not_elem_of_union in Hok as [H1 H2].
        naive_solver.
    + destruct F4 as [-> _]. split.
      * intros [H|[Hb H]]; [by left|right]. split; [done|by right].
      * intros [H|[Hb [H|H]]]; [by left| |right; by split].
        by destruct H.
Qed.

(** A connection is in the registry while its handler runs, and out of
    it afterwards. While [HandleWebSocket] waits for a frame, the
    connection is registered; it is closed only if it was closed when the
    handler started, or if its transport is down and one of the frames
    handled asked for a reply, the write of which failed. Once the handler
    has returned, for whatever reason, the connection is closed and out of
    the registry. The other connections are neither closed nor added nor
    removed. *)
Theorem HandleWebSocket_registered_while_running conn frames w :
  let out := HandleWebSocket (Some conn) frames w in
  match out.2 with
  | AwaitingFrame =>
      members out.1 = {[conn]} ∪ members w ∧
      (conn ∈ closed out.1 ↔
       conn ∈ closed w ∨
       (conn ∈ broken w ∧
        ∃ msg, Decoded msg ∈ frames ∧ is_Some (reply_type_of (Type_ msg))))
  | Returned => conn ∈ closed out.1 ∧ members out.1 = members w ∖ {[conn]}
  end ∧
  ∀ c, c ≠ conn → (c ∈ closed out.1 ↔ c ∈ closed w).
Proof.
  intros out. subst out. unfold HandleWebSocket.
  set (w1 := handleRegister conn w).
  destruct (readLoop_frame conn frames w1) as (E1 & _ & _ & E4 & E5).
  pose proof (readLoop_closed_iff conn frames w1) as Ha.
  change (clients w1) with (<[conn := true]> (clients w)) in E1.
  change (closed w1) with (closed w) in E4, E5, Ha.
  change (broken w1) with (broken w) in Ha.
  destruct (readLoop conn frames w1) as [w2 [|]]; cbn [fst snd] in *.
  - split.
    + split; [unfold members; rewrite E1; apply dom_insert_L|].
      exact (Ha eq_refl).
    + intros c Hne. set_solver.
  - assert (Hcl : closed (connClose conn (handleUnregister conn w2))
                  = {[conn]} ∪ closed w2).
    { unfold handleUnregister. destruct (clients w2 !! conn); simpl; set_solver. }
    assert (Hm : members (connClose conn (handleUnregister conn w2))
                 = members w ∖ {[conn]}).
    { unfold members. change (clients (connClose conn ?x)) with (clients x).
      rewrite handleUnregister_clients, E1, dom_delete_L, dom_insert_L.
      set_solver. }
    rewrite Hcl, Hm. split; [split; [set_solver|done]|].
    intros c Hne. set_solver.
Qed.

(** The transport of connection 1 is down: the reply to its request cannot
    be written, [sendToClient] closes the connection, and the handler goes
    back to wait for the next frame, the connection closed and still in
    the registry. *)
Example awaiting_after_failed_write :
  let w := {| config := default_config; clients := ∅; closed := ∅; broken := {[1]};
              sent := []; logs := []; calls := [] |} in
  let out := HandleWebSocket (Some 1)
               [Decoded {| Type_ := "fetch-configs"; Data := JNull |}] w in
  out.2 = AwaitingFrame ∧ 1 ∈ closed out.1 ∧ 1 ∈ members out.1 ∧ sent out.1 = [].
Proof. intros w out. split_and!; [reflexivity|by_compute|by_compute|reflexivity]. Qed.

(** After a broadcast every connection left in the registry can be
    written to. So a second broadcast right behind the first (no transport
    failing in between) reaches every remaining member, removes none and
    closes none. *)
Theorem broadcast_leaves_writable_members message order w :
  order ≡ₚ elements (members w) →
  let w1 := broadcastLoop message order w in
  failing w1 = ∅ ∧
  ∀ message2 order2,
    order2 ≡ₚ elements (members w1) →
    let w2 := broadcastLoop message2 order2 w1 in
    members w2 = members w1 ∧
    closed w2 = closed w1 ∧
    ∀ c, c ∈ members w1 → sent_to c w2 = sent_to c w1 ++ [message2].
Proof.
  intros Hperm w1.
  destruct (broadcastLoop_result message order w Hperm) as (Em & Ec & Eb & _).
  fold w1 in Em, Ec, Eb.
  assert (Hf : failing w1 = ∅).
  { apply set_eq. intros c. rewrite elem_of_failing, Em, Ec, Eb.
    rewrite elem_of_difference, !elem_of_union, elem_of_failing, elem_of_union.
    split; [|by intros ?%elem_of_empty]. naive_solver. }
  split; [done|]. intros message2 order2 Hperm2 w2.
  destruct (broadcastLoop_result message2 order2 w1 Hperm2) as (Em2 & Ec2 & _ & Es2).
  fold w2 in Em2, Ec2, Es2. rewrite Hf in Em2, Ec2.
  split_and!; [set_solver | set_solver |].
  intros c Hc. rewrite Es2. rewrite decide_True; [done|].
  split; [done|]. intros Hbad.
  assert (c ∈ failing w1) by (by apply elem_of_failing).
  set_solver.
Qed.

Lemma broadcast_leaves_writable_members_witness :
  let w := connClose 2 (handleRegister 3 (handleRegister 2
             (handleRegister 1 (new_world default_config)))) in
  let message := {| Type_ := "configs"; Data := JNull |} in
  failing (handleBroadcast message w) = ∅.
Proof.
  intros w message.
  destruct (broadcast_leaves_writable_members message (elements (members w)) w)
    as (H & _); [reflexivity|]. exact H.
Defined.

(** The registry decides who a broadcast reaches: a connection that has
    just been registered, if it can be written to, gets the message; a
    connection that has just been unregistered gets nothing. *)
Theorem broadcast_follows_registration c message w :
  (if decide (c ∈ closed w ∪ broken w)
   then sent_to c (handleBroadcast message (handleRegister c w)) = sent_to c w
   else sent_to c (handleBroadcast message (handleRegister c w))
        = sent_to c w ++ [message]) ∧
  sent_to c (handleBroadcast message (handleUnregister c w)) = sent_to c w.
Proof.
  split.
  - destruct (broadcastLoop_result message
                (elements (members (handleRegister c w))) (handleRegister c w))
      as (_ & _ & _ & Es); [done|].
    unfold handleBroadcast. fold (members (handleRegister c w)).
    rewrite Es. change (sent_to c (handleRegister c w)) with (sent_to c w).
    change (closed (handleRegister c w)) with (closed w).
    change (broken (handleRegister c w)) with (broken w).
    destruct (decide (c ∈ closed w ∪ broken w)) as [H|H].
    + rewrite decide_False; [by rewrite app_nil_r|]. by intros [_ ?].
    + rewrite decide_True; [done|]. split; [|done].
      unfold members. rewrite handleRegister_clients, dom_insert_L. set_solver.
  - destruct (broadcastLoop_result message
                (elements (members (handleUnregister c w))) (handleUnregister c w))
      as (_ & _ & _ & Es); [done|].
    unfold handleBroadcast. fold (members (handleUnregister c w)).
    rewrite Es. rewrite decide_False.
    + rewrite app_nil_r. unfold sent_to, handleUnregister.
      by destruct (clients w !! c).
    + intros [H _]. by apply (handleUnregister_not_member c w).
Qed.

(** A [fetch-configs] frame on a working connection is answered with one
    [configs] frame that carries the handler's settings for the three
    services as they are, the key of the language model service included,
    whatever data the request carried. *)
Theorem fetch_configs_discloses_settings conn data w :
  conn ∉ closed w ∪ broken w →
  ∃ reply,
    sent (handleMessage conn {| Type_ := "fetch-configs"; Data := data |} w)
      = sent w ++ [(conn, reply)] ∧
    Type_ reply = "configs" ∧
    (jget "llm" (Data reply) ≫= jget "Provider") = Some (JStr (llm_Provider (LLM (config w)))) ∧
    (jget "llm" (Data reply) ≫= jget "Model") = Some (JStr (llm_Model (LLM (config w)))) ∧
    (jget "llm" (Data reply) ≫= jget "BaseURL") = Some (JStr (llm_BaseURL (LLM (config w)))) ∧
    (jget "llm" (Data reply) ≫= jget "APIKey") = Some (JStr (llm_APIKey (LLM (config w)))) ∧
    (jget "asr" (Data reply) ≫= jget "Provider") = Some (JStr (asr_Provider (ASR (config w)))) ∧
    (jget "asr" (Data reply) ≫= jget "Model") = Some (JStr (asr_Model (ASR (config w)))) ∧
    (jget "tts" (Data reply) ≫= jget "Provider") = Some (JStr (tts_Provider (TTS (config w)))) ∧
    (jget "tts" (Data reply) ≫= jget "Voice") = Some (JStr (tts_Voice (TTS (config w)))).
Proof.
  intros Hok. rewrite handleMessage_fetch_configs by done.
  unfold sendConfigs. rewrite sendToClient_ok by done.
  eexists. split; [reflexivity|]. by split_and!.
Qed.

Lemma fetch_configs_discloses_settings_witness :
  let cfg := {| LLM := {| llm_Provider := "openai"; llm_Model := "gpt";
                          llm_BaseURL := "https://api"; llm_APIKey := "sk-secret" |};
                ASR := {| asr_Provider := "sherpa"; asr_Model := "sense" |};
                TTS := {| tts_Provider := "edge"; tts_Voice := "zh" |} |} in
  ∃ reply,
    sent (handleMessage 1 {| Type_ := "fetch-configs"; Data := JNull |}
            (handleRegister 1 (new_world cfg))) = [(1, reply)] ∧
    (jget "llm" (Data reply) ≫= jget "APIKey") = Some (JStr "sk-secret").
Proof.
  intros cfg.
  destruct (fetch_configs_discloses_settings 1 JNull (handleRegister 1 (new_world cfg)))
    as (reply & H1 & _ & _ & _ & _ & H5 & _).
  - by_compute.
  - exists reply. exact (conj H1 H5).
Defined.

End WsHandlerSessions.

Section AudioHandlerMore.
Import AudioHandler.

Implicit Types (svc : Services) (tr : list Event).

(** The three answers of [ProcessAudio]. It answers 400 exactly when the
    request does not bind, and then no stage is entered and nothing is
    logged; it answers 200 exactly when the request binds and the three
    services succeed in turn, and only then does the body carry a reply;
    every other request is answered 500. *)
Theorem ProcessAudio_status svc bound tr :
  let out := ProcessAudio svc bound tr in
  (status out.2 = 400 ↔ ∃ e, bound = Err e) ∧
  (status out.2 = 400 → out.1 = tr) ∧
  (status out.2 = 200 ↔
     ∃ req text reply audioURL,
       bound = Ok req ∧
       asr_service svc (AudioData req) (Format req) = Ok text ∧
       llm_service svc text = Ok reply ∧
       tts_service svc reply = Ok audioURL ∧
       body out.2 = AudioBody {| Text := reply; AudioURL := audioURL |}) ∧
  (status out.2 = 200 ∨ status out.2 = 400 ∨ status out.2 = 500) ∧
  (∀ r, body out.2 = AudioBody r → status out.2 = 200).
Proof.
  intros out. subst out. destruct bound as [req|e0]; simpl.
  2:{ split_and!; try done.
      - split; [by eexists|done].
      - split; [done|]. by intros (? & ? & ? & ? & ? & _).
      - by right; left. }
  rewrite processAudioData_run. cbv zeta.
  destruct (asr_service svc _ _) as [text|e] eqn:Ea; simpl.
  2:{ split_and!; try done.
      - split; [done|]. by intros [? ?].
      - split; [done|]. intros (? & ? & ? & ? & ? & ? & _). congruence.
      - by right; right. }
  destruct (llm_service svc text) as [reply|e] eqn:El; simpl.
  2:{ split_and!; try done.
      - split; [done|]. by intros [? ?].
      - split; [done|]. intros (? & ? & ? & ? & ? & ? & ? & _). congruence.
      - by right; right. }
  destruct (tts_service svc reply) as [audioURL|e] eqn:Et; simpl.
  2:{ split_and!; try done.
      - split; [done|]. by intros [? ?].
      - split; [done|]. intros (? & ? & ? & ? & ? & ? & ? & ? & _). congruence.
      - by right; right. }
  split_and!; try done.
  - split; [done|]. by intros [? ?].
  - split; [|done]. intros _. by exists req, text, reply, audioURL.
  - by left.
Qed.

(** With the three services as they are written, every request that binds
    is answered 200 with the same reply and the same audio url, whatever
    audio and format it carries: the endpoint never answers 500. *)
Theorem ProcessAudio_stubs_constant req tr :
  (ProcessAudio stubs (Ok req) tr).2 =
    {| status := 200;
       body := AudioBody {| Text := "AI的回复内容";
                            AudioURL := "/audio/generated.mp3" |} |} ∧
  stages (ProcessAudio stubs (Ok req) tr).1 = stages tr ++ [ASR; LLM; TTS].
Proof.
  unfold ProcessAudio. rewrite processAudioData_run. simpl. split; [done|].
  unfold stages. by rewrite <- !app_assoc, omap_app.
Qed.

(** [ProcessWebSocketAudio] is the audio run without its last stage. The
    recognition service is handed one byte per sample, as format [raw];
    the language model follows on the transcript; speech synthesis is
    never entered. Whenever the full run on those bytes succeeds, this one
    returns the text of its reply; whenever this one fails, the full run
    fails with the same error. *)
Theorem ProcessWebSocketAudio_is_run_without_tts
    svc {Sample} (byte_of_sample : Sample → Byte.byte) (audioData : list Sample) tr :
  let buf := byte_of_sample <$> audioData in
  let out := ProcessWebSocketAudio svc byte_of_sample audioData tr in
  let full := processAudioData svc buf "raw" tr in
  length buf = length audioData ∧
  out.1 = tr ++ CallASR buf "raw" ::
            match asr_service svc buf "raw" with
            | Ok text => [CallLLM text]
            | Err _ => []
            end ∧
  (∀ r, full.2 = Ok r → out.2 = Ok (Text r)) ∧
  (∀ e, out.2 = Err e → full.2 = Err e).
Proof.
  intros buf out full. subst out full.
  unfold ProcessWebSocketAudio. fold buf.
  rewrite processAudioData_run, bind_run, callASRService_run. cbv zeta.
  split; [unfold buf; by rewrite length_fmap|].
  destruct (asr_service svc buf "raw") as [text|e]; simpl.
  2:{ split_and!; [done | by intros r [=] | by intros e0 [= ->]]. }
  unfold callLLMService, mbind, M_bind, emit, lift. cbv beta iota.
  destruct (llm_service svc text) as [reply|e]; simpl.
  - split; [by rewrite <- app_assoc|]. split; [|by intros e0 [=]].
    intros r. destruct (tts_service svc reply); simpl; [|by intros [=]].
    by intros [= <-].
  - split; [by rewrite <- app_assoc|].
    split; [by intros r [=] | by intros e0 [= ->]].
Qed.

End AudioHandlerMore.

Section WsClientMore.
Import WsClient.

Implicit Types (e : Env) (evs : list Event).

Lemma live_zero e i s : live e = 0 → sockets e !! i = Some s → s = CLOSED.
Proof.
  unfold live. intros H%length_zero_iff_nil Hs.
  destruct (decide (s = CLOSED)) as [|Hne]; [done|].
  exfalso. eapply (filter_nil_not_elem_of _ _ s H Hne).
  by eapply list_elem_of_lookup_2.
Qed.

Lemma Inv_ws_new_service created : Inv_ws (new_service created).
Proof.
  destruct created; unfold Inv_ws; simpl; split_and!; try done.
  all: try by intros [|[|i]] s [= <-] _.
  all: by intros [|[|i]].
Qed.

(** One event keeps [Inv_ws]. *)
Lemma step_Inv_ws ev e e' :
  is_connect ev = false →
  step ev e = Some e' → Inv e → Inv_ws e → Inv_ws e'.
Proof.
  intros Hev Hstep (H1 & H2 & H3) (W1 & W2 & W3).
  destruct ev as [i|i|i|i|created| |created]; simpl in Hstep; [..|done].
  - destruct (sockets e !! i) as [[]|] eqn:E; simplify_eq.
    unfold Inv_ws. simpl. split_and!; [|done..].
    intros j s [(-> & _ & _)|[_ Hj]]%list_lookup_insert_Some Hs.
    + by apply (W1 j CONNECTING).
    + by apply (W1 j s).
  - destruct (sockets e !! i) as [[]|] eqn:E; by simplify_eq.
  - destruct (sockets e !! i) as [[]|] eqn:E; by simplify_eq.
  - assert (∃ s, sockets e !! i = Some s ∧ s ≠ CLOSED ∧
                 e' = onclose (set_sockets (λ l, <[i := CLOSED]> l) e))
      as (s & E & Hs & ->).
    { destruct (sockets e !! i) as [[]|] eqn:E; simplify_eq; eauto. }
    assert (Hk : ∀ x, this (onclose x) = this x ∧ sockets (onclose x) = sockets x).
    { intros x. unfold onclose. simpl. by destruct (_ <? _). }
    unfold Inv_ws. destruct (Hk (set_sockets (λ l, <[i := CLOSED]> l) e)) as [-> ->].
    simpl. split_and!; [| |done].
    + intros j s' [(-> & <- & _)|[_ Hj]]%list_lookup_insert_Some Hs'; [done|].
      by apply (W1 j s').
    + intros j [(_ & [=] & _)|[_ Hj]]%list_lookup_insert_Some. by apply (W2 j).
  - destruct (pending e) as [|d rest] eqn:E; simplify_eq.
    assert (Hlive : live e = 0) by (simpl in H1; lia).
    unfold Inv_ws, reconnect, connect. destruct created; simpl.
    + split_and!; [| |done].
      * intros j s [Hj|[Hlen Hj]]%lookup_app_Some Hs.
        -- by rewrite (live_zero e j s Hlive Hj) in Hs.
        -- f_equal. destruct (j - length (sockets e)) eqn:Ej; [lia|].
           by destruct n.
      * intros j [Hj|[Hlen Hj]]%lookup_app_Some.
        -- by pose proof (live_zero e j OPEN Hlive Hj).
        -- destruct (j - length (sockets e)) as [|[|n]]; simplify_eq/=.
    + split_and!; [| |done].
      * intros j s Hj Hs. by rewrite (live_zero e j s Hlive Hj) in Hs.
      * intros j Hj. by pose proof (live_zero e j OPEN Hlive Hj).
  - simplify_eq. destruct (close_this e) as [Et _].
    unfold Inv_ws. rewrite Et.
    assert (Hsock : ∀ j s, sockets (close e) !! j = Some s → s ≠ CLOSED →
              ∃ s0, sockets e !! j = Some s0 ∧ s0 ≠ CLOSED ∧ (s = OPEN → s0 = OPEN)).
    { unfold close. destruct (ws (this e)) as [i|]; [|by eauto].
      destruct (sockets e !! i) as [[]|] eqn:Ei; simpl; eauto;
        intros j s [(-> & <- & _)|[_ Hj]]%list_lookup_insert_Some Hs; eauto;
        eexists; split_and!; done. }
    split_and!; [| |done].
    + intros j s Hj Hs. destruct (Hsock j s Hj Hs) as (s0 & H0 & Hne & _).
      by apply (W1 j s0).
    + intros j Hj. destruct (Hsock j OPEN Hj) as (s0 & H0 & _ & Ho); [done|].
      apply (W2 j). by rewrite H0, Ho.
Qed.

Lemma run_Inv_both evs : ∀ e e',
  no_connect evs →
  run evs e = Some e' → Inv e → Inv_ws e → Inv e' ∧ Inv_ws e'.
Proof.
  induction evs as [|ev evs IH]; intros e e' Hnc Hrun HI HW; simpl in Hrun.
  - by simplify_eq.
  - destruct (step ev e) as [e1|] eqn:E; [|done].
    apply Forall_cons in Hnc as [Hev Hnc].
    apply (IH e1 e' Hnc Hrun).
    + by apply (step_Inv ev e e1).
    + by apply (step_Inv_ws ev e e1).
Qed.

Lemma reachable_Inv created evs e :
  no_connect evs →
  run evs (new_service created) = Some e → Inv e ∧ Inv_ws e.
Proof.
  intros Hnc H. apply (run_Inv_both evs _ _ Hnc H);
    [apply Inv_new_service | apply Inv_ws_new_service].
Qed.

(** What a call of [connect()] by the page does to a service that has a
    socket already: the socket is replaced in [this.ws] without being
    closed, so two sockets are live; when the older one opens, the
    service is not connected and [send] throws. *)
Example page_connect_two_live_sockets :
  (live <$> run [CallConnect true] (new_service true)) = Some 2 ∧
  (ws ∘ this <$> run [CallConnect true] (new_service true)) = Some (Some 1) ∧
  (isConnected <$> run [CallConnect true; SocketOpens 0] (new_service true))
    = Some false ∧
  (send (JStr "ping") <$> run [CallConnect true; SocketOpens 0] (new_service true))
    = Some NotConnected.
Proof. split_and!; vm_compute; reflexivity. Qed.

(** A call of [connect()] by the page while a reconnection is pending:
    when the new socket opens and closes, two timers are pending. *)
Example page_connect_two_timers :
  (pending <$> run [SocketCloses 0; CallConnect true; SocketOpens 1; SocketCloses 1]
                 (new_service true))
  = Some [5000; 5000].
Proof. vm_compute. reflexivity. Qed.

(** As long as [connect()] is called by the constructor and the
    reconnection timer only, the service never holds two sockets at once:
    at most one socket is not closed, it is the one in [this.ws], at most
    one reconnection timer is pending, and none while a socket is
    connecting or open. *)
Theorem at_most_one_live_socket created evs e :
  no_connect evs →
  run evs (new_service created) = Some e →
  live e ≤ 1 ∧
  length (pending e) ≤ 1 ∧
  (∀ i s, sockets e !! i = Some s → s ≠ CLOSED →
     ws (this e) = Some i ∧ pending e = []).
Proof.
  intros Hnc Hrun.
  destruct (reachable_Inv created evs e Hnc Hrun) as [(H1 & _) (W1 & _)].
  split_and!; [lia | lia |].
  intros i s Hi Hs. split; [by apply (W1 i s)|].
  destruct (decide (live e = 0)) as [H0|H0].
  - by rewrite (live_zero e i s H0 Hi) in Hs.
  - apply length_zero_iff_nil. lia.
Qed.

Lemma at_most_one_live_socket_witness :
  ∃ e, run [SocketOpens 0; SocketCloses 0; TimerFires true; SocketOpens 1]
           (new_service true) = Some e ∧
       live e ≤ 1 ∧ ws (this e) = Some 1.
Proof.
  eexists. split; [vm_compute; reflexivity|].
  edestruct (at_most_one_live_socket true
               [SocketOpens 0; SocketCloses 0; TimerFires true; SocketOpens 1])
    as (H1 & _ & H3); [repeat constructor | vm_compute; reflexivity|].
  split; [exact H1|]. apply (H3 1 OPEN); [reflexivity | discriminate].
Defined.

(** As long as [connect()] is called by the constructor and the
    reconnection timer only, an established connection that closes is
    always reconnected: whether the socket closes by itself or after the
    page calls [close()], its close event leaves one timer pending, of
    5000 ms, and the counter at 0. So [close()] does not end the service:
    it only restarts the connection. *)
Theorem closed_connection_reconnects created evs e i :
  no_connect evs →
  run evs (new_service created) = Some e →
  sockets e !! i = Some OPEN →
  ∃ e1 e2,
    run [SocketCloses i] e = Some e1 ∧
    run [CallClose; SocketCloses i] e = Some e2 ∧
    pending e1 = [5000] ∧ pending e2 = [5000] ∧
    reconnectAttempts (this e1) = 0 ∧ reconnectAttempts (this e2) = 0 ∧
    isConnected e1 = false ∧ isConnected e2 = false.
Proof.
  intros Hnc Hrun Hi.
  destruct (reachable_Inv created evs e Hnc Hrun) as [(H1 & H2 & H3) (W1 & W2 & W3)].
  pose proof (W1 i OPEN Hi ltac:(done)) as Hws.
  pose proof (W2 i Hi) as Hatt.
  assert (Hp : pending e = []).
  { destruct (decide (live e = 0)) as [H0|H0].
    - by pose proof (live_zero e i OPEN H0 Hi).
    - apply length_zero_iff_nil. lia. }
  assert (Hlt : (reconnectAttempts (this e) <? maxReconnectAttempts (this e)) = true).
  { apply Nat.ltb_lt. lia. }
  assert (Hlen : i < length (sockets e)) by (by eapply lookup_lt_Some).
  assert (Hclose : close e = set_sockets (λ l, <[i := CLOSING]> l) e).
  { unfold close. by rewrite Hws, Hi. }
  assert (Hon : ∀ x, this x = this e → pending x = pending e →
            onclose x = set_pending (λ l, l ++ [5000]) (emit "close" x)).
  { intros x Ex Epx. unfold onclose. simpl. by rewrite Ex, Hlt, W3. }
  exists (set_pending (λ l, l ++ [5000])
            (emit "close" (set_sockets (λ l, <[i := CLOSED]> l) e))),
         (set_pending (λ l, l ++ [5000])
            (emit "close" (set_sockets (λ l, <[i := CLOSED]> l) (close e)))).
  split_and!.
  - simpl. rewrite Hi. by rewrite Hon.
  - simpl. rewrite Hclose. simpl. rewrite list_lookup_insert_eq by done.
    by rewrite Hon.
  - simpl. by rewrite Hp.
  - rewrite Hclose. simpl. by rewrite Hp.
  - done.
  - by rewrite Hclose.
  - unfold isConnected. simpl. rewrite Hws. by rewrite list_lookup_insert_eq.
  - rewrite Hclose. unfold isConnected. simpl. rewrite Hws.
    rewrite list_lookup_insert_eq; [done|]. by rewrite length_insert.
Qed.

Lemma closed_connection_reconnects_witness :
  ∃ e e2, run [SocketOpens 0] (new_service true) = Some e ∧
          run [CallClose; SocketCloses 0] e = Some e2 ∧ pending e2 = [5000].
Proof.
  pose (e := onopen (set_sockets (λ l, <[0 := OPEN]> l) (new_service true))).
  destruct (closed_connection_reconnects true [SocketOpens 0] e 0)
    as (e1 & e2 & _ & H2 & _ & H4 & _).
  - repeat constructor.
  - reflexivity.
  - reflexivity.
  - exists e, e2. split; [reflexivity|]. exact (conj H2 H4).
Defined.

(** As long as [connect()] is called by the constructor and the
    reconnection timer only, the socket that opens is the one [send] uses:
    right after an open event the service is connected, and [send] hands
    the data to that very socket, as JSON text when it is an object, an
    array or [null], and as it is otherwise. *)
Theorem send_after_open created evs e i e' data :
  no_connect evs →
  run evs (new_service created) = Some e →
  step (SocketOpens i) e = Some e' →
  isConnected e' = true ∧
  send data e' = Sent i (if typeof_object data then Stringified data else Raw data).
Proof.
  intros Hnc Hrun Hstep.
  destruct (reachable_Inv created evs e Hnc Hrun) as [_ (W1 & _)].
  simpl in Hstep. destruct (sockets e !! i) as [[]|] eqn:Ei; simplify_eq.
  pose proof (W1 i CONNECTING Ei ltac:(done)) as Hws.
  assert (Hlen : i < length (sockets e)) by (by eapply lookup_lt_Some).
  unfold isConnected, send, onopen. simpl. rewrite Hws.
  rewrite list_lookup_insert_eq by done. split; [done|].
  by destruct (typeof_object data).
Qed.

Lemma send_after_open_witness :
  ∃ e', step (SocketOpens 0) (new_service true) = Some e' ∧
        send (JObj [("type", JStr "request-init-config")]) e'
        = Sent 0 (Stringified (JObj [("type", JStr "request-init-config")])) ∧
        send (JStr "ping") e' = Sent 0 (Raw (JStr "ping")).
Proof.
  exists (onopen (set_sockets (λ l, <[0 := OPEN]> l) (new_service true))).
  split; [reflexivity|]. split.
  - apply (send_after_open true [] (new_service true) 0);
      [constructor | reflexivity..].
  - apply (send_after_open true [] (new_service true) 0);
      [constructor | reflexivity..].
Defined.

Lemma step_no_open ev e e' :
  is_open ev = false → step ev e = Some e' →
  (∀ i, sockets e !! i ≠ Some OPEN) → ∀ i, sockets e' !! i ≠ Some OPEN.
Proof.
  intros Hev Hstep Hno j.
  destruct ev as [i|i|i|i|created| |created]; simpl in Hstep; [done|..].
  - destruct (sockets e !! i) as [[]|]; by simplify_eq.
  - destruct (sockets e !! i) as [[]|]; by simplify_eq.
  - assert (e' = onclose (set_sockets (λ l, <[i := CLOSED]> l) e)) as ->.
    { destruct (sockets e !! i) as [[]|]; by simplify_eq. }
    unfold onclose. simpl.
    destruct (_ <? _); simpl;
      by intros [(_ & [=] & _)|[_ Hj]]%list_lookup_insert_Some; apply (Hno j).
  - destruct (pending e) as [|d rest]; simplify_eq.
    unfold reconnect, connect. destruct created; simpl; [|apply Hno].
    intros [Hj|[_ Hj]]%lookup_app_Some; [by apply (Hno j)|].
    by destruct (j - length (sockets e)) as [|[|n]].
  - simplify_eq. unfold close.
    destruct (ws (this e)) as [i|]; [|apply Hno].
    destruct (sockets e !! i) as [[]|]; simpl; try apply Hno;
      by intros [(_ & [=] & _)|[_ Hj]]%list_lookup_insert_Some; apply (Hno j).
  - simplify_eq.
    unfold connect. destruct created; simpl; [|apply Hno].
    intros [Hj|[_ Hj]]%lookup_app_Some; [by apply (Hno j)|].
    by destruct (j - length (sockets e)) as [|[|n]].
Qed.

(** While no socket is open, [send] throws: from a state in which no
    socket is open, and through any events other than a socket opening
    (closes, errors, timers, reconnection attempts, calls of [close()]
    and of [connect()]),
    the service is not connected and every [send] ends in the
    not-connected error. This is so from the construction of the service
    until its first open event. *)
Theorem send_throws_until_open evs : ∀ e e' data,
  (∀ i, sockets e !! i ≠ Some OPEN) →
  no_open evs →
  run evs e = Some e' →
  isConnected e' = false ∧ send data e' = NotConnected.
Proof.
  induction evs as [|ev evs IH]; intros e e' data Hno Hevs Hrun; simpl in Hrun.
  - simplify_eq. unfold isConnected, send.
    destruct (ws (this e')) as [i|]; [|done].
    pose proof (Hno i) as Hi. by destruct (sockets e' !! i) as [[]|].
  - destruct (step ev e) as [e1|] eqn:E; [|done].
    apply Forall_cons in Hevs as [Hev Hevs].
    apply (IH e1 e' data); [|done..].
    by apply (step_no_open ev e e1).
Qed.

Lemma send_throws_until_open_witness :
  ∃ e', run [SocketErrors 0; SocketCloses 0; TimerFires true; CallClose]
            (new_service true) = Some e' ∧
        send (JStr "ping") e' = NotConnected.
Proof.
  eexists. split; [vm_compute; reflexivity|].
  eapply (send_throws_until_open
            [SocketErrors 0; SocketCloses 0; TimerFires true; CallClose]
            (new_service true)).
  - by intros [|[|i]].
  - repeat constructor.
  - vm_compute. reflexivity.
Defined.

End WsClientMore.

Section WsEventsFacts.
Import WsEvents.

Implicit Types (reg : Registry) (event : string) (h : Handler).

Lemma run_calls_app cs1 cs2 reg reg1 :
  run_calls cs1 reg = Returns reg1 →
  run_calls (cs1 ++ cs2) reg = run_calls cs2 reg1.
Proof.
  revert reg. induction cs1 as [|c cs1 IH]; intros reg H; simpl in *.
  - by simplify_eq.
  - destruct (call c reg) as [reg'|]; [by apply IH|done].
Qed.

Lemma on_not_inherited event h reg :
  event ∉ inherited →
  on event h reg = Returns (<[event := handlers_of event reg ++ [h]]> reg).
Proof.
  intros Hev. unfold on, handlers_of.
  destruct (reg !! event); simpl; [done|]. by rewrite decide_False.
Qed.

Lemma handlers_of_insert event l reg :
  handlers_of event (<[event := l]> reg) = l.
Proof. unfold handlers_of. by rewrite lookup_insert_eq. Qed.

(** Handlers run in the order they were registered. After [on] has been
    called for the handlers [hs] in turn, under an event name that is not
    a property of every object, [emit] calls the handlers already there
    and then [hs], in that order and once per registration; a handler that
    throws has its error caught, and stops none of those behind it; the
    handlers of the other events are as before. *)
Theorem emit_calls_handlers_in_order throws event hs : ∀ reg,
  event ∉ inherited →
  ∃ reg',
    run_calls (On event <$> hs) reg = Returns reg' ∧
    emit throws event reg'
      = Returns {| called := handlers_of event reg ++ hs;
                   caught := filter (λ h, throws h = true)
                               (handlers_of event reg ++ hs) |} ∧
    ∀ event', event' ≠ event → reg' !! event' = reg !! event'.
Proof.
  induction hs as [|h hs IH]; intros reg Hev.
  - exists reg. split; [done|]. split; [|done].
    unfold emit, handlers_of. rewrite app_nil_r.
    destruct (reg !! event); simpl; [done|]. by rewrite decide_False.
  - destruct (IH (<[event := handlers_of event reg ++ [h]]> reg) Hev)
      as (reg' & Hrun & Hemit & Hother).
    exists reg'. split_and!.
    + simpl. by rewrite on_not_inherited.
    + rewrite Hemit, handlers_of_insert. by rewrite <- !app_assoc.
    + intros event' Hne. rewrite Hother by done. by rewrite lookup_insert_ne.
Qed.

Lemma emit_calls_handlers_in_order_witness :
  ∃ reg',
    run_calls (On "message" <$> [7; 3; 7]) ∅ = Returns reg' ∧
    emit (λ h, bool_decide (h = 3)) "message" reg'
      = Returns {| called := [7; 3; 7]; caught := [3] |}.
Proof.
  destruct (emit_calls_handlers_in_order (λ h, bool_decide (h = 3)) "message" [7; 3; 7] ∅)
    as (reg' & H1 & H2 & _).
  - by_compute.
  - exists reg'. split; [exact H1|]. exact H2.
Defined.

Lemma remove_first_not_in h l : h ∉ l → remove_first h l = l.
Proof.
  induction l as [|x l IH]; [done|]. intros [Hx Hl]%not_elem_of_cons. simpl.
  rewrite decide_False by done. by rewrite IH.
Qed.

Lemma remove_first_split h l :
  h ∈ l → ∃ l1 l2, l = l1 ++ h :: l2 ∧ (h ∉ l1) ∧ remove_first h l = l1 ++ l2.
Proof.
  induction l as [|x l IH]; [by intros ?%elem_of_nil|].
  intros Hin. simpl. destruct (decide (x = h)) as [->|Hne].
  - exists [], l. split_and!; [done| |done]. by intros ?%elem_of_nil.
  - apply elem_of_cons in Hin as [->|Hin]; [done|].
    destruct (IH Hin) as (l1 & l2 & -> & Hl1 & ->).
    exists (x :: l1), l2. split_and!; [done| |done].
    intros [->|?]%elem_of_cons; done.
Qed.

Lemma remove_first_app_in h l k :
  h ∈ l → remove_first h (l ++ k) = remove_first h l ++ k.
Proof.
  induction l as [|x l IH]; [by intros ?%elem_of_nil|].
  intros Hin. simpl. destruct (decide (x = h)); [done|].
  apply elem_of_cons in Hin as [->|Hin]; [done|]. by rewrite IH.
Qed.

(** [off] takes away one registration, the earliest. With handlers
    registered for the event: a handler that is not among them leaves
    them as they are; one that is loses its first occurrence and only
    that, the others keep their places. *)
Theorem off_removes_earliest_registration event h reg l :
  reg !! event = Some l →
  ∃ reg',
    off event h reg = Returns reg' ∧
    (∀ event', event' ≠ event → reg' !! event' = reg !! event') ∧
    if decide (h ∈ l)
    then ∃ l1 l2, l = l1 ++ h :: l2 ∧ (h ∉ l1) ∧ handlers_of event reg' = l1 ++ l2
    else handlers_of event reg' = l.
Proof.
  intros Hl. exists (<[event := remove_first h l]> reg). split_and!.
  - unfold off. by rewrite Hl.
  - intros event' Hne. by rewrite lookup_insert_ne.
  - rewrite handlers_of_insert.
    destruct (decide (h ∈ l)) as [Hin|Hin].
    + destruct (remove_first_split h l Hin) as (l1 & l2 & H1 & H2 & H3). eauto.
    + by apply remove_first_not_in.
Qed.

Lemma off_removes_earliest_registration_witness :
  let reg : Registry := {["message" := [3; 7; 5; 7]]} in
  ∃ reg',
    off "message" 7 reg = Returns reg' ∧
    (∀ event', event' ≠ "message" → reg' !! event' = reg !! event') ∧
    if decide (7 ∈ [3; 7; 5; 7])
    then ∃ l1 l2, [3; 7; 5; 7] = l1 ++ 7 :: l2 ∧ (7 ∉ l1) ∧
                  handlers_of "message" reg' = l1 ++ l2
    else handlers_of "message" reg' = [3; 7; 5; 7].
Proof.
  intros reg.
  apply (off_removes_earliest_registration "message" 7 reg [3; 7; 5; 7]).
  reflexivity.
Defined.

(** With [3; 7; 5; 7] registered, [off] of 7 leaves [3; 5; 7]. *)
Example off_first_of_two :
  handlers_of "message"
    (match off "message" 7 {["message" := [3; 7; 5; 7]]} with
     | Returns reg' => reg'
     | Throws => ∅
     end) = [3; 5; 7].
Proof. reflexivity. Qed.

(** Registering a handler and removing it again. For an event name that
    is not a property of every object, [on] followed by [off] of the same
    handler gives back the handlers of the event as they were when the
    handler was not among them; when it already was, it is its earlier
    registration that goes, so the handler ends up last. The other events
    keep their handlers. *)
Theorem on_off_round_trip event h reg :
  event ∉ inherited →
  ∃ reg1 reg2,
    on event h reg = Returns reg1 ∧
    off event h reg1 = Returns reg2 ∧
    handlers_of event reg2 =
      (if decide (h ∈ handlers_of event reg)
       then remove_first h (handlers_of event reg) ++ [h]
       else handlers_of event reg) ∧
    ∀ event', event' ≠ event → reg2 !! event' = reg !! event'.
Proof.
  intros Hev. eexists _, _. split_and!.
  - by apply on_not_inherited.
  - unfold off. rewrite lookup_insert_eq. reflexivity.
  - rewrite handlers_of_insert.
    destruct (decide (h ∈ handlers_of event reg)) as [Hin|Hin].
    + by apply remove_first_app_in.
    + induction (handlers_of event reg) as [|x l IH]; simpl.
      * by rewrite decide_True.
      * apply not_elem_of_cons in Hin as [Hx Hl].
        rewrite decide_False by done. by rewrite IH.
  - intros event' Hne. by rewrite !lookup_insert_ne.
Qed.

Lemma on_off_round_trip_witness :
  ∃ reg1 reg2,
    on "message" 7 {["message" := [7; 3]]} = Returns reg1 ∧
    off "message" 7 reg1 = Returns reg2 ∧
    handlers_of "message" reg2 = [3; 7].
Proof.
  destruct (on_off_round_trip "message" 7 {["message" := [7; 3]]})
    as (reg1 & reg2 & H1 & H2 & H3 & _); [by_compute|].
  exists reg1, reg2. split; [exact H1|]. split; [exact H2|]. exact H3.
Defined.

Lemma call_no_inherited c reg reg' :
  call c reg = Returns reg' →
  (∀ event, event ∈ inherited → reg !! event = None) →
  ∀ event, event ∈ inherited → reg' !! event = None.
Proof.
  intros Hcall Hreg event Hev.
  destruct c as [ev h|ev h]; simpl in Hcall; unfold on, off in Hcall.
  - destruct (reg !! ev) as [l|] eqn:E.
    + simplify_eq. rewrite lookup_insert_ne; [by apply Hreg|].
      intros ->. by rewrite Hreg in E.
    + destruct (decide (ev ∈ inherited)); simplify_eq.
      rewrite lookup_insert_ne; [by apply Hreg|]. by intros ->.
  - destruct (reg !! ev) as [l|] eqn:E.
    + simplify_eq. rewrite lookup_insert_ne; [by apply Hreg|].
      intros ->. by rewrite Hreg in E.
    + destruct (decide (ev ∈ inherited)); simplify_eq. by apply Hreg.
Qed.

(** The names every object has ([toString], [constructor], ...) can never
    be used as event names: whatever calls of [on] and [off] have been
    made on a new service, no handler is ever registered under such a
    name, and [on], [off] and [emit] for it each end in a [TypeError]. *)
Theorem inherited_names_always_throw throws cs reg event h :
  run_calls cs ∅ = Returns reg →
  event ∈ inherited →
  reg !! event = None ∧
  on event h reg = Throws ∧
  off event h reg = Throws ∧
  emit throws event reg = Throws.
Proof.
  intros Hrun Hev.
  assert (Hnone : ∀ cs0 reg0 reg1, run_calls cs0 reg0 = Returns reg1 →
            (∀ ev, ev ∈ inherited → reg0 !! ev = None) →
            ∀ ev, ev ∈ inherited → reg1 !! ev = None).
  { induction cs0 as [|c cs0 IH]; intros reg0 reg1 H0 Hreg0; simpl in H0.
    - by simplify_eq.
    - destruct (call c reg0) as [reg0'|] eqn:Ec; [|done].
      apply (IH reg0' reg1 H0). by apply (call_no_inherited c reg0). }
  assert (E : reg !! event = None).
  { apply (Hnone cs ∅ reg Hrun); [|done]. intros ev _. apply lookup_empty. }
  unfold on, off, emit. rewrite E. by rewrite !decide_True.
Qed.

Lemma inherited_names_always_throw_witness :
  on "toString" 1 {["message" := [2]]} = Throws.
Proof.
  destruct (inherited_names_always_throw (λ _, false) [On "message" 2]
              {["message" := [2]]} "toString" 1) as (_ & H & _).
  - reflexivity.
  - by_compute.
  - exact H.
Defined.

End WsEventsFacts.

Section AudioStoreMore.
Import AudioStore.

Implicit Types (st : State) (r : Recording).

Lemma take_app_take {A} n (l k : list A) :
  take n (l ++ take n k) = take n (l ++ k).
Proof.
  rewrite !take_app. f_equal. rewrite take_take. f_equal. lia.
Qed.

(** One recording added to a list within the bound: the new entry in
    front, cut to ten. *)
Lemma add_recording_kept r st :
  length (recentAudio st) ≤ 10 →
  kept_of_entry <$> recentAudio (act (add_recording r) st)
  = take 10 (kept_of_recording r :: (kept_of_entry <$> recentAudio st)).
Proof.
  intros Hlen. unfold add_recording, act. rewrite addAudio_recentAudio.
  destruct (Nat.leb_spec 10 (length (recentAudio st))).
  - rewrite removelast_firstn_len. simpl length.
    replace (Nat.pred (S (length (recentAudio st)))) with 10 by lia.
    by rewrite fmap_take.
  - rewrite take_ge; [done|]. simpl. rewrite length_fmap. lia.
Qed.

Lemma acts_add_recordings_kept rs : ∀ st,
  length (recentAudio st) ≤ 10 →
  kept_of_entry <$> recentAudio (acts (add_recording <$> rs) st)
  = take 10 (reverse (kept_of_recording <$> rs) ++ (kept_of_entry <$> recentAudio st)).
Proof.
  induction rs as [|r rs IH]; intros st Hlen.
  - simpl. rewrite take_ge; [done|]. rewrite length_fmap. lia.
  - rewrite fmap_cons. change (acts (?a :: ?l) st) with (acts l (act a st)).
    rewrite IH by (by apply act_length).
    rewrite add_recording_kept by done.
    rewrite take_app_take, fmap_cons, reverse_cons, <- app_assoc. done.
Qed.

(** The list is a window on the recordings: after any recordings added in
    a row to a list within the bound, it holds the most recent ten of what
    was added and what was there, newest first, each with its url and its
    two clock readings. *)
Theorem recentAudio_most_recent_ten rs st :
  length (recentAudio st) ≤ 10 →
  kept_of_entry <$> recentAudio (acts (add_recording <$> rs) st)
  = take 10 (reverse (kept_of_recording <$> rs) ++ (kept_of_entry <$> recentAudio st)).
Proof. apply acts_add_recordings_kept. Qed.

Lemma recentAudio_most_recent_ten_witness :
  let rec n : Recording := ({| ad_url := Some "/a.mp3" |}, n, n) in
  kept_of_entry <$> recentAudio
    (acts (add_recording <$> (rec <$> [1; 2; 3; 4; 5; 6; 7; 8; 9; 10; 11; 12]%Z))
          initial_state)
  = kept_of_recording <$> (rec <$> [12; 11; 10; 9; 8; 7; 6; 5; 4; 3]%Z).
Proof.
  intros rec.
  rewrite (recentAudio_most_recent_ten
             (rec <$> [1; 2; 3; 4; 5; 6; 7; 8; 9; 10; 11; 12]%Z) initial_state).
  - reflexivity.
  - simpl. lia.
Defined.

(** The name of an entry counts the entries held, not the recordings
    made. From a new store, the recording made after [n] others is named
    [Audio n+1] for the first ten, and [Audio 11] from then on: once the
    list is full every new entry carries the same name. *)
Theorem names_repeat_once_full rs r :
  name <$> head (recentAudio (acts (add_recording <$> (rs ++ [r])) initial_state))
  = Some ("Audio " +:+ pretty (length rs `min` 10 + 1)).
Proof.
  set (st := acts (add_recording <$> rs) initial_state).
  assert (Eacts : acts (add_recording <$> (rs ++ [r])) initial_state
                  = state_of (addAudio (Some r.1.1) r.1.2 r.2 st)).
  { unfold st, acts. rewrite fmap_app, foldl_app. reflexivity. }
  assert (Hlen : length (recentAudio st) = length rs `min` 10).
  { pose proof (acts_add_recordings_kept rs initial_state) as H.
    apply (f_equal length) in H; [|simpl; lia].
    change (kept_of_entry <$> recentAudio initial_state)
      with (@nil (Z * option string * Z)) in H.
    rewrite length_fmap, length_take, app_nil_r, length_reverse, length_fmap in H.
    fold st in H. lia. }
  pose proof (addAudio_recentAudio r.1.1 r.1.2 r.2 st) as E. cbv zeta in E.
  rewrite Eacts, E, Hlen.
  destruct (Nat.leb_spec 10 (length rs `min` 10)); [|done].
  destruct (recentAudio st) as [|x l] eqn:El; [simpl in Hlen; lia|done].
Qed.

End AudioStoreMore.

Section ApiServiceFacts.
Import ApiService.

Implicit Types (api : Service) (options : Options).

(** The request made does not depend on how the network answers. *)
Lemma request_made fetch api endpoint options :
  made (request fetch api endpoint options) =
    {| url := baseURL api +:+ endpoint;
       req_method := method options;
       req_headers :=
         match headers options with
         | Some h => h
         | None => {["Content-Type" := "application/json"]}
         end;
       req_body := body options |}.
Proof.
  unfold request.
  assert (Hm : headers options = None →
            default ∅ (headers options) ∪ {["Content-Type" := "application/json"]}
            = ({["Content-Type" := "application/json"]} : gmap string string)).
  { intros ->. simpl. by rewrite (left_id_L ∅ (∪)). }
  destruct (headers options) as [h|] eqn:Eh.
  - by destruct (fetch _) as [e|[] status [v|e]].
  - rewrite (Hm eq_refl). by destruct (fetch _) as [e|[] status [v|e]].
Qed.

(** [request] never swallows a failure. It resolves exactly when the
    response is [ok] and its body parses, with the parsed value and
    nothing logged; every other outcome rejects, with the error logged
    once and thrown again; a response that is not [ok] rejects with a
    message that carries the status, whatever its body. *)
Theorem request_never_swallows_errors fetch api endpoint options :
  let out := request fetch api endpoint options in
  (∀ v, settled out = Resolved v ↔
        ∃ status, fetch (made out) = FetchResponds true status (JsonResolves v)) ∧
  (∀ v, settled out = Resolved v → logged out = []) ∧
  (∀ e, settled out = Rejected e → logged out = [e]) ∧
  (∀ status json, fetch (made out) = FetchResponds false status json →
     settled out = Rejected ("HTTP error! status: " +:+ pretty status)).
Proof.
  intros out. subst out. unfold request.
  set (config := Build_Request _ _ _ _).
  destruct (fetch config) as [e|[] status [v|e]] eqn:Ef; simpl; rewrite ?Ef.
  - split_and!.
    + intros v0. split; [done|]. by intros [? [=]].
    + done.
    + by intros ? [= <-].
    + by intros ? ? [=].
  - split_and!.
    + intros v0. split; [intros [= <-]; by eexists|].
      intros [? ?]. by simplify_eq.
    + done.
    + done.
    + by intros ? ? [=].
  - split_and!.
    + intros v0. split; [done|]. by intros [? [=]].
    + done.
    + by intros ? [= <-].
    + by intros ? ? [=].
  - split_and!.
    + intros v0. split; [done|]. by intros [? [=]].
    + done.
    + by intros ? [= <-].
    + by intros ? ? [= <- <-].
  - split_and!.
    + intros v0. split; [done|]. by intros [? [=]].
    + done.
    + by intros ? [= <-].
    + by intros ? ? [= <- <-].
Qed.

(** Headers given by the caller replace the defaults instead of being
    merged with them: the request carries the caller's headers as they
    are, so [Content-Type] is sent only if the caller gave it. The calls
    the service makes itself give no headers, and always carry
    [Content-Type: application/json], their method, the url under the base
    url and, for [post] and [put], the data as JSON text. *)
Theorem caller_headers_replace_defaults fetch stringify api endpoint options data :
  match headers options with
  | Some h => req_headers (made (request fetch api endpoint options)) = h
  | None => req_headers (made (request fetch api endpoint options))
            = {["Content-Type" := "application/json"]}
  end ∧
  made (get fetch api endpoint) =
    {| url := baseURL api +:+ endpoint; req_method := Some "GET";
       req_headers := {["Content-Type" := "application/json"]}; req_body := None |} ∧
  made (post fetch stringify api endpoint data) =
    {| url := baseURL api +:+ endpoint; req_method := Some "POST";
       req_headers := {["Content-Type" := "application/json"]};
       req_body := Some (stringify data) |} ∧
  made (put fetch stringify api endpoint data) =
    {| url := baseURL api +:+ endpoint; req_method := Some "PUT";
       req_headers := {["Content-Type" := "application/json"]};
       req_body := Some (stringify data) |} ∧
  made (delete fetch api endpoint) =
    {| url := baseURL api +:+ endpoint; req_method := Some "DELETE";
       req_headers := {["Content-Type" := "application/json"]}; req_body := None |}.
Proof.
  split_and!.
  - rewrite request_made. by destruct (headers options).
  - unfold get. by rewrite request_made.
  - unfold post. by rewrite request_made.
  - unfold put. by rewrite request_made.
  - unfold delete. by rewrite request_made.
Qed.

(** A caller that passes only an [Authorization] header loses the
    [Content-Type]. *)
Example authorization_only_drops_content_type :
  let out := request (λ _, FetchRejects "offline") (new_ApiService None) "/configs"
               {| method := Some "POST";
                  headers := Some {["Authorization" := "Bearer t"]};
                  body := Some "{}" |} in
  url (made out) = "/api/configs" ∧
  req_headers (made out) !! "Content-Type" = None ∧
  settled out = Rejected "offline".
Proof. intros out. split_and!; reflexivity. Qed.

(** The audio endpoint seen from the client. When the answer of
    [ProcessAudio] reaches [processAudio()], the call resolves exactly
    when the three services succeeded, with the reply text and the audio
    url under [text] and [audio_url]; when the request did not bind or a
    service failed, it rejects with the status alone, 400 or 500: the
    error message the server put in the body is not read. *)
Theorem processAudio_end_to_end svc bound tr stringify api audioData :
  let resp := (AudioHandler.ProcessAudio svc bound tr).2 in
  let out := processAudio (λ _, respond resp) stringify api audioData in
  url (made out) = baseURL api +:+ "/audio/process" ∧
  match AudioHandler.body resp with
  | AudioHandler.AudioBody r =>
      AudioHandler.status resp = 200 ∧
      settled out =
        Resolved (JObj [("text", JStr (AudioHandler.Text r));
                        ("audio_url", JStr (AudioHandler.AudioURL r))]) ∧
      logged out = []
  | AudioHandler.ErrorBody msg =>
      (AudioHandler.status resp = 400 ∨ AudioHandler.status resp = 500) ∧
      settled out = Rejected ("HTTP error! status: " +:+ pretty (AudioHandler.status resp)) ∧
      logged out = ["HTTP error! status: " +:+ pretty (AudioHandler.status resp)]
  end.
Proof.
  intros resp out. subst out.
  split; [unfold processAudio, post; by rewrite request_made|].
  subst resp. unfold AudioHandler.ProcessAudio.
  destruct bound as [req|e0]; simpl.
  2:{ split_and!; [by left|done..]. }
  rewrite processAudioData_run. cbv zeta.
  destruct (AudioHandler.asr_service svc _ _) as [text|e]; simpl.
  2:{ split_and!; [by right|done..]. }
  destruct (AudioHandler.llm_service svc text) as [reply|e]; simpl.
  2:{ split_and!; [by right|done..]. }
  destruct (AudioHandler.tts_service svc reply) as [audioURL|e]; simpl.
  2:{ split_and!; [by right|done..]. }
  done.
Qed.

End ApiServiceFacts.
